(** * NovaHUB: the tender ingestion and field-extraction service

    A shallow embedding of [src/services/tenderService.ts] and of the part of
    [src/types.ts] it uses, followed by the properties of the specification
    that concern it.

    Conventions.
    - A JavaScript string is the list of its UTF-16 code units, so that
      [length], [substring], [indexOf] and the regular expressions count
      what the program counts.
    - [undefined] and [null] are [None].
    - Platform functions whose result the repository does not determine
      (lower-casing, the DOM parser, [Date] parsing, the network, the clock
      and the random generator) are fields of an environment [Env]; the
      ones whose result the properties depend on ([parseFloat],
      [Intl.NumberFormat], the regular expression engine, [trim]) are
      modelled concretely, each with a note on the range where the model is
      exact. *)

From Stdlib Require Import String Ascii.
From Stdlib Require Import List NArith ZArith Bool Lia.
From Stdlib Require Import Permutation Sorted.
Import ListNotations.

Set Implicit Arguments.

(* ================================================================== *)
(** * Strings *)
(* ================================================================== *)

Definition jsstring := list N.

(** An ASCII literal as a JavaScript string. *)
Definition str (s : string) : jsstring :=
  map N_of_ascii (list_ascii_of_string s).

(** Code units outside ASCII that occur in the source. *)
Definition c_euro   : N := 8364.   (* U+20AC *)
Definition c_nbsp   : N := 160.    (* U+00A0 *)
Definition c_Oacute : N := 211.    (* U+00D3 *)
Definition c_oacute : N := 243.    (* U+00F3 *)
Definition c_iacute : N := 237.    (* U+00ED *)

Definition c_dot   : N := 46.
Definition c_comma : N := 44.
Definition c_colon : N := 58.
Definition c_lt    : N := 60.
Definition c_gt    : N := 62.

Fixpoint jsstring_eqb (a b : jsstring) : bool :=
  match a, b with
  | [], [] => true
  | x :: a', y :: b' => N.eqb x y && jsstring_eqb a' b'
  | _, _ => false
  end.

(** [s.startsWith(p)] *)
Fixpoint startsWith (s p : jsstring) : bool :=
  match p, s with
  | [], _ => true
  | x :: p', y :: s' => N.eqb x y && startsWith s' p'
  | _ :: _, [] => false
  end.

(** [s.includes(p)] *)
Fixpoint includes (s p : jsstring) : bool :=
  startsWith s p ||
  match s with
  | [] => false
  | _ :: s' => includes s' p
  end.

(** [s.includes(c)] for a one-character pattern. *)
Definition includesChar (s : jsstring) (c : N) : bool :=
  existsb (N.eqb c) s.

(** [s.indexOf(c)] for a one-character pattern: -1 when absent. *)
Fixpoint indexOf (s : jsstring) (c : N) : Z :=
  match s with
  | [] => (-1)%Z
  | x :: s' =>
      if N.eqb x c then 0%Z
      else let i := indexOf s' c in
           if (i <? 0)%Z then (-1)%Z else (i + 1)%Z
  end.

Open Scope N_scope.

(** ECMAScript WhiteSpace and LineTerminator code units: what [\s] matches
    and what [trim] removes. *)
Definition isWhiteSpace (c : N) : bool :=
  ((9 <=? c) && (c <=? 13)) || (c =? 32) || (c =? 160) || (c =? 5760)
  || ((8192 <=? c) && (c <=? 8202)) || (c =? 8232) || (c =? 8233)
  || (c =? 8239) || (c =? 8287) || (c =? 12288) || (c =? 65279).

(** ECMAScript LineTerminator: what [.] does not match. *)
Definition isLineTerminator (c : N) : bool :=
  (c =? 10) || (c =? 13) || (c =? 8232) || (c =? 8233).

Close Scope N_scope.

Fixpoint trimStart (s : jsstring) : jsstring :=
  match s with
  | c :: s' => if isWhiteSpace c then trimStart s' else s
  | [] => []
  end.

Definition trimEnd (s : jsstring) : jsstring := rev (trimStart (rev s)).

(** [s.trim()] *)
Definition trim (s : jsstring) : jsstring := trimEnd (trimStart s).

(** [s.replace(c, d)] with one-character strings: the first occurrence. *)
Fixpoint replaceFirst (c d : N) (s : jsstring) : jsstring :=
  match s with
  | [] => []
  | x :: s' => if N.eqb x c then d :: s' else x :: replaceFirst c d s'
  end.

(** [s.replace(/c/g, '')] for a one-character pattern. *)
Definition removeAll (c : N) (s : jsstring) : jsstring :=
  filter (fun x => negb (N.eqb x c)) s.

(* ================================================================== *)
(** * Regular expressions

    The backtracking matcher of ECMAScript for the fragment the source
    uses: literals, one-character classes, quantifiers over such classes,
    the end-of-input assertion, sequence, ordered alternation and one
    capture group. Alternatives are tried left to right, a greedy quantifier
    tries the longest repetition first and a lazy one the shortest. *)
(* ================================================================== *)

Inductive regex : Type :=
| Lit (s : jsstring)            (* the characters of [s] in a row *)
| Star (p : N -> bool)          (* [p*]  *)
| StarLazy (p : N -> bool)      (* [p*?] *)
| Plus (p : N -> bool)          (* [p+]  *)
| Opt (p : N -> bool)           (* [p?]  *)
| Eos                           (* [$] without the [m] flag *)
| Seq (r1 r2 : regex)
| Alt (r1 r2 : regex)
| Cap (r : regex).              (* the capture group *)

(** Canonicalize of the [i] flag (no [u] flag): the upper-case mapping when
    it is one code unit and does not take a non-ASCII character into ASCII.
    Written out for Basic Latin and Latin-1; every character of the patterns
    below is in ASCII or is one of U+00D3, U+00F3, U+20AC, and no character
    above U+00FF has one of those as its upper case, so pattern characters
    compare as in ECMAScript against every input code unit. *)
Open Scope N_scope.

Definition canonicalize (c : N) : N :=
  if (97 <=? c) && (c <=? 122) then c - 32
  else if (224 <=? c) && (c <=? 254) && negb (c =? 247) then c - 32
  else if c =? 181 then 924
  else if c =? 255 then 376
  else c.

Definition charMatches (ignoreCase : bool) (p c : N) : bool :=
  if ignoreCase then canonicalize p =? canonicalize c else p =? c.

Close Scope N_scope.

(** A match state: the input that remains and the capture so far. *)
Definition MatchState : Type := (jsstring * option jsstring)%type.
Definition Continuation : Type := jsstring -> option jsstring -> option MatchState.

Fixpoint execLit (ic : bool) (p s : jsstring) : option jsstring :=
  match p, s with
  | [], _ => Some s
  | x :: p', c :: s' => if charMatches ic x c then execLit ic p' s' else None
  | _ :: _, [] => None
  end.

Fixpoint execStar (p : N -> bool) (s : jsstring) (k : jsstring -> option MatchState)
  : option MatchState :=
  match s with
  | c :: s' =>
      if p c then
        match execStar p s' k with
        | Some m => Some m
        | None => k s
        end
      else k s
  | [] => k []
  end.

Fixpoint execStarLazy (p : N -> bool) (s : jsstring) (k : jsstring -> option MatchState)
  : option MatchState :=
  match k s with
  | Some m => Some m
  | None =>
      match s with
      | c :: s' => if p c then execStarLazy p s' k else None
      | [] => None
      end
  end.

Fixpoint exec (ic : bool) (r : regex) (s : jsstring) (cap : option jsstring)
  (k : Continuation) : option MatchState :=
  match r with
  | Lit p =>
      match execLit ic p s with
      | Some s' => k s' cap
      | None => None
      end
  | Star p => execStar p s (fun s' => k s' cap)
  | StarLazy p => execStarLazy p s (fun s' => k s' cap)
  | Plus p =>
      match s with
      | c :: s' => if p c then execStar p s' (fun s'' => k s'' cap) else None
      | [] => None
      end
  | Opt p =>
      match s with
      | c :: s' =>
          if p c then
            match k s' cap with
            | Some m => Some m
            | None => k s cap
            end
          else k s cap
      | [] => k [] cap
      end
  | Eos => match s with [] => k [] cap | _ :: _ => None end
  | Seq r1 r2 => exec ic r1 s cap (fun s' cap' => exec ic r2 s' cap' k)
  | Alt r1 r2 =>
      match exec ic r1 s cap k with
      | Some m => Some m
      | None => exec ic r2 s cap k
      end
  | Cap r1 =>
      exec ic r1 s cap
        (fun s' _ => k s' (Some (firstn (length s - length s') s)))
  end.

(** One attempt at the current position. *)
Definition matchHere (ic : bool) (r : regex) (s : jsstring) : option MatchState :=
  exec ic r s None (fun s' cap => Some (s', cap)).

(** [text.match(r)] for a regular expression without the [g] flag: the
    leftmost position at which an attempt succeeds. The result is the
    content of the capture group ([m[1]]). *)
Fixpoint search (ic : bool) (r : regex) (s : jsstring) : option (option jsstring) :=
  match matchHere ic r s with
  | Some (_, cap) => Some cap
  | None =>
      match s with
      | [] => None
      | _ :: s' => search ic r s'
      end
  end.

(** [text.replace(r, '')] for a regular expression with the [g] flag:
    attempts are made left to right, a match is dropped and scanning resumes
    after it; [skip] counts the characters of the current match still to be
    dropped. An empty match drops nothing and scanning moves on by one. *)
Fixpoint replaceAllEmpty (ic : bool) (r : regex) (skip : nat) (s : jsstring) : jsstring :=
  match s with
  | [] => []
  | c :: s' =>
      match skip with
      | S n => replaceAllEmpty ic r n s'
      | O =>
          match matchHere ic r s with
          | Some (rest, _) =>
              match length s - length rest with
              | O => c :: replaceAllEmpty ic r 0 s'
              | S n => replaceAllEmpty ic r n s'
              end
          | None => c :: replaceAllEmpty ic r 0 s'
          end
      end
  end.

Open Scope N_scope.

(** Character classes of the source's patterns. *)
Definition isDigit (c : N) : bool := (48 <=? c) && (c <=? 57).
Definition isTokenChar (c : N) : bool :=
  isDigit c || (c =? c_dot) || (c =? c_comma).          (* [\d\.,] *)
Definition isAnyChar (c : N) : bool := negb (isLineTerminator c).   (* . *)
Definition isNotGt (c : N) : bool := negb (c =? c_gt).   (* [^>] *)
Definition isGt (c : N) : bool := c =? c_gt.


(* ================================================================== *)
(** * Numbers: [parseFloat] and [Intl.NumberFormat]

    A Number is a binary64 value. [parseFloat] reads the longest decimal
    literal at the head of its argument and returns the binary64 value
    nearest to it, ties going to the even significand (beyond twenty
    significant digits ECMAScript lets an implementation choose between
    two neighbouring values; the engines return the nearest one, which is
    modelled here). [Intl.NumberFormat] prints the shortest decimal that
    reads back as the Number, rounded to the fraction digits asked for,
    halves away from zero.

    Only Numbers that are not negative are modelled: the program parses
    strings made of digits, dots and commas. NaN is [None]. *)
(* ================================================================== *)

(** The mathematical value of a decimal literal: [mantissa / 10^scale]. *)
Record decimal : Type := { mantissa : N; scale : nat }.

(** A Number that is neither NaN nor negative: [significand * 2^exponent],
    with a significand below [2^53] and an exponent from -1074 to 971, or
    Infinity. *)
Inductive number : Type :=
| Finite (significand : N) (exponent : Z)
| Infinity.

Fixpoint takeDigits (s : jsstring) : jsstring * jsstring :=
  match s with
  | c :: s' =>
      if isDigit c then let (ds, rest) := takeDigits s' in (c :: ds, rest)
      else ([], s)
  | [] => ([], [])
  end.

Definition digitsValue (ds : jsstring) : N :=
  fold_left (fun acc c => 10 * acc + (c - 48)) ds 0.

(** The literal that [parseFloat(s)] reads: the longest prefix of [s], after
    leading white space, of the form [digits], [digits.], [digits.digits]
    or [.digits]; [None] when there is none. Signs, exponents and
    [Infinity] are left out: the program only passes strings made of
    digits, dots and commas. *)
Definition literalValue (s : jsstring) : option decimal :=
  let (ip, rest) := takeDigits (trimStart s) in
  let whole :=
    match ip with
    | [] => None
    | _ :: _ => Some {| mantissa := digitsValue ip; scale := 0 |}
    end in
  match rest with
  | c :: rest' =>
      if c =? c_dot then
        let (fp, _) := takeDigits rest' in
        match ip, fp with
        | [], [] => None
        | _, _ => Some {| mantissa := digitsValue (ip ++ fp); scale := length fp |}
        end
      else whole
  | [] => whole
  end.

Close Scope N_scope.
Open Scope Z_scope.

(** [x * 2^e] and [x * 10^k] for an exponent that is not negative; [x] for a
    negative one, which is then carried by the other side of a comparison
    or quotient. *)
Definition mulPow2 (x e : Z) : Z := x * 2 ^ Z.max e 0.
Definition mulPow10 (x k : Z) : Z := x * 10 ^ Z.max k 0.

(** The integer [l] with [2^l <= a / b < 2^(l+1)], for positive [a], [b]. *)
Definition floorLog2Ratio (a b : Z) : Z :=
  let l := Z.log2 a - Z.log2 b in
  if mulPow2 b l <=? mulPow2 a (- l) then l else l - 1.

(** The integer nearest to [a / (b * 2^e)], the even one of two that are
    equally near. *)
Definition roundQuotient (a b e : Z) : Z :=
  let num := mulPow2 a (- e) in
  let den := mulPow2 b e in
  let q := num / den in
  let r := num mod den in
  if 2 * r <? den then q
  else if den <? 2 * r then q + 1
  else if Z.even q then q
  else q + 1.

(** The binary64 value nearest to a decimal (round to nearest, ties to
    even): 53 bits of significand, the least exponent -1074 below which
    values are subnormal, Infinity from [(2^53 - 1/2) * 2^971] on. *)
Definition nearestBinary64 (d : decimal) : number :=
  let a := Z.of_N (mantissa d) in
  let b := 10 ^ Z.of_nat (scale d) in
  if a =? 0 then Finite 0 0
  else
    let e := Z.max (-1074) (floorLog2Ratio a b - 52) in
    let m := roundQuotient a b e in
    let (m', e') := if m =? 2 ^ 53 then (2 ^ 52, e + 1) else (m, e) in
    if 971 <? e' then Infinity else Finite (Z.to_N m') e'.

(** [parseFloat(s)]; [None] is NaN. *)
Definition parseFloat (s : jsstring) : option number :=
  option_map nearestBinary64 (literalValue s).

(** Whether [c * 10^k] reads back as the Number [m * 2^e]: whether it lies
    between the midpoints of [m * 2^e] and its two neighbours, the
    midpoints counting when [m] is even. Below a power of two the
    neighbour is half as far. *)
Definition inRoundingInterval (m e c k : Z) : bool :=
  let f := e - 2 in
  let lower := 4 * m - (if (m =? 2 ^ 52) && (-1074 <? e) then 1 else 2) in
  let upper := 4 * m + 2 in
  let L := mulPow10 (mulPow2 lower f) (- k) in
  let U := mulPow10 (mulPow2 upper f) (- k) in
  let C := mulPow10 (mulPow2 c (- f)) k in
  if Z.even m then (L <=? C) && (C <=? U) else (L <? C) && (C <? U).

Definition decimalOf (c k : Z) : decimal :=
  {| mantissa := Z.to_N (mulPow10 c k); scale := Z.to_nat (- k) |}.

(** The value [m * 2^e] itself, written as a decimal. *)
Definition exactDecimal (m e : Z) : decimal :=
  if 0 <=? e then decimalOf (m * 2 ^ e) 0 else decimalOf (m * 5 ^ (- e)) e.

(** The shortest decimal that reads back as [m * 2^e], looked for among the
    multiples of [10^k], then of [10^(k-1)], and so on: of the two
    multiples next to the value the one in the rounding interval, the
    nearer one if both are, the one with the even last digit if they are
    equally near. *)
Fixpoint shortestFrom (fuel : nat) (m e k : Z) : decimal :=
  let num := mulPow10 (mulPow2 m e) (- k) in
  let den := mulPow10 (mulPow2 1 (- e)) k in
  let c := num / den in
  let r := num mod den in
  let below := inRoundingInterval m e c k in
  let above := inRoundingInterval m e (c + 1) k in
  if below && above then
    if 2 * r <? den then decimalOf c k
    else if den <? 2 * r then decimalOf (c + 1) k
    else if Z.even c then decimalOf c k
    else decimalOf (c + 1) k
  else if below then decimalOf c k
  else if above then decimalOf (c + 1) k
  else
    match fuel with
    | O => exactDecimal m e
    | S fuel' => shortestFrom fuel' m e (k - 1)
    end.

(** The search starts at a power of ten above the value, [10^start] being
    at least [2^l] for [l] the number of bits of the value (30102/100000 <
    log10 2 < 30103/100000), and has reached the value itself, at the
    latest, at [10^e] for a negative [e] and at 1 otherwise. *)
Definition shortestDecimal (m e : Z) : decimal :=
  let l := Z.log2 m + e + 1 in
  let start := if 0 <=? l then l * 30103 / 100000 + 1 else l * 30102 / 100000 + 1 in
  shortestFrom (Z.to_nat (start - Z.min e 0)) m e start.

Close Scope Z_scope.
Open Scope N_scope.

(** The value in hundredths, rounded half away from zero (the default
    rounding of [Intl.NumberFormat]). *)
Definition roundToCents (d : decimal) : N :=
  if (scale d <=? 2)%nat then mantissa d * 10 ^ N.of_nat (2 - scale d)
  else
    let p := 10 ^ N.of_nat (scale d - 2) in
    let q := mantissa d / p in
    if p <=? 2 * (mantissa d mod p) then q + 1 else q.

Fixpoint uintDigits (u : Decimal.uint) : jsstring :=
  match u with
  | Decimal.Nil => []
  | Decimal.D0 u' => 48 :: uintDigits u'
  | Decimal.D1 u' => 49 :: uintDigits u'
  | Decimal.D2 u' => 50 :: uintDigits u'
  | Decimal.D3 u' => 51 :: uintDigits u'
  | Decimal.D4 u' => 52 :: uintDigits u'
  | Decimal.D5 u' => 53 :: uintDigits u'
  | Decimal.D6 u' => 54 :: uintDigits u'
  | Decimal.D7 u' => 55 :: uintDigits u'
  | Decimal.D8 u' => 56 :: uintDigits u'
  | Decimal.D9 u' => 57 :: uintDigits u'
  end.

(** The decimal digits of a natural number, ["0"] for zero. *)
Definition decimalDigits (n : N) : jsstring :=
  match uintDigits (N.to_uint n) with
  | [] => [48]
  | ds => ds
  end.

(** Group separators, written from the least significant digit: one after
    every third digit that has a digit above it. *)
Fixpoint groupFromRight (revDigits : jsstring) (n : nat) : jsstring :=
  match revDigits with
  | [] => []
  | d :: r =>
      match r with
      | [] => [d]
      | _ :: _ =>
          if (n =? 2)%nat then d :: c_dot :: groupFromRight r 0
          else d :: groupFromRight r (S n)
      end
  end.

(** The integer part in the [es-ES] locale: groups of three separated by
    dots; the locale data set the minimum grouping digits to 2, so that an
    integer part of four digits is not grouped. *)
Definition groupInteger (ds : jsstring) : jsstring :=
  if (5 <=? length ds)%nat then rev (groupFromRight (rev ds) 0) else ds.

Definition twoDigits (n : N) : jsstring := [48 + n / 10; 48 + n mod 10].

Definition c_infinity : N := 8734.   (* U+221E *)

(** A decimal in the [es-ES] euro format with two fraction digits: the
    grouped integer part, a comma, two decimals, a no-break space and the
    euro sign. *)
Definition formatDecimal (value : decimal) : jsstring :=
  let cents := roundToCents value in
  groupInteger (decimalDigits (cents / 100))
    ++ [c_comma] ++ twoDigits (cents mod 100) ++ [c_nbsp; c_euro].

(** [formatCurrency]: [new Intl.NumberFormat('es-ES', {style: 'currency',
    currency: 'EUR', minimumFractionDigits: 2, maximumFractionDigits: 2})
    .format(value)]. Infinity is printed as its sign. *)
Definition formatCurrency (value : number) : jsstring :=
  match value with
  | Infinity => [c_infinity; c_nbsp; c_euro]
  | Finite 0 _ => formatDecimal {| mantissa := 0; scale := 0 |}
  | Finite m e => formatDecimal (shortestDecimal (Z.of_N m) e)
  end.

Close Scope N_scope.

(* ================================================================== *)
(** * Field extraction: the amount *)
(* ================================================================== *)

(** [/(?:Importe|Valor estimado|Presupuesto base|Importe total)(?:.*?):\s*([\d\.,]+)/i] *)
Definition labelRegex : regex :=
  Seq (Alt (Lit (str "Importe"))
        (Alt (Lit (str "Valor estimado"))
          (Alt (Lit (str "Presupuesto base"))
               (Lit (str "Importe total")))))
   (Seq (StarLazy isAnyChar)
     (Seq (Lit [c_colon])
       (Seq (Star isWhiteSpace)
            (Cap (Plus isTokenChar))))).

(** [/([\d\.,]+)\s?(?:€|EUR|euros)/i] *)
Definition currencyRegex : regex :=
  Seq (Cap (Plus isTokenChar))
   (Seq (Opt isWhiteSpace)
        (Alt (Lit [c_euro]) (Alt (Lit (str "EUR")) (Lit (str "euros"))))).

(** Lines 68 to 72: the separators of a European amount. *)
Definition europeanCleanup (clean : jsstring) : jsstring :=
  if includesChar clean c_dot && includesChar clean c_comma then
    replaceFirst c_comma c_dot (removeAll c_dot clean)
  else if includesChar clean c_comma then
    replaceFirst c_comma c_dot clean
  else clean.

(** Lines 55 to 61: the return taken by a token in plain form, such as
    "600000.00"; [None] when control goes on to line 63. *)
Definition plainFormAmount (clean : jsstring) : option jsstring :=
  if includesChar clean c_dot && negb (includesChar clean c_comma) then
    if (indexOf clean c_dot =? Z.of_nat (length clean) - 3)%Z then
      match parseFloat clean with
      | Some num => Some (formatCurrency num)
      | None => None
      end
    else None
  else None.

Definition normalizeAndFormatAmount (raw : jsstring) : option jsstring :=
  let clean := trim raw in
  match plainFormAmount clean with
  | Some formatted => Some formatted
  | None =>
      match parseFloat (europeanCleanup clean) with
      | Some num => Some (formatCurrency num)
      | None => None
      end
  end.

(** [m[1]] of a match is always defined for the two patterns (the group is
    not optional); the [Some None] case stands for a match without it and
    is never reached. *)
Definition extractAmount (text : jsstring) : option jsstring :=
  match search true labelRegex text with
  | Some (Some token) => normalizeAndFormatAmount token
  | Some None => None
  | None =>
      match search true currencyRegex text with
      | Some (Some token) => normalizeAndFormatAmount token
      | Some None => None
      | None => None
      end
  end.

(* ================================================================== *)
(** * Field extraction: the contracting body and the summary *)
(* ================================================================== *)

(** [/Órgano de Contratación:\s*(.*?)(?:;|,|\. |$)/i] *)
Definition organismRegex : regex :=
  Seq (Lit ([c_Oacute] ++ str "rgano de Contrataci" ++ [c_oacute] ++ str "n:"))
   (Seq (Star isWhiteSpace)
     (Seq (Cap (StarLazy isAnyChar))
          (Alt (Lit (str ";")) (Alt (Lit (str ",")) (Alt (Lit (str ". ")) Eos))))).

Definition extractOrganism (text : jsstring) : option jsstring :=
  match search true organismRegex text with
  | Some (Some captured) => Some (trim captured)
  | Some None => None
  | None => None
  end.

(** [/<[^>]*>?/gm] *)
Definition tagRegex : regex :=
  Seq (Lit [c_lt]) (Seq (Star isNotGt) (Opt isGt)).

(** [text.replace(/<[^>]*>?/gm, '')] *)
Definition stripTags (text : jsstring) : jsstring :=
  replaceAllEmpty false tagRegex 0 text.

(* ================================================================== *)
(** * The environment of the service *)
(* ================================================================== *)

(** A computation that returns or throws. *)
Inductive result (A : Type) : Type :=
| Ok (a : A)
| Throw (e : jsstring).

Arguments Ok {A} a.
Arguments Throw {A} e.

Definition bind {A B : Type} (m : result A) (f : A -> result B) : result B :=
  match m with
  | Ok a => f a
  | Throw e => Throw e
  end.

(** [try { body } catch (e) { handler }] *)
Definition tryCatch {A : Type} (body : result A) (handler : jsstring -> result A)
  : result A :=
  match body with
  | Ok a => Ok a
  | Throw e => handler e
  end.

(** [await Promise.all(promises)]: the values in the order of the array,
    or the rejection of one of them. *)
Fixpoint promiseAll {A : Type} (promises : list (result A)) : result (list A) :=
  match promises with
  | [] => Ok []
  | p :: ps => bind p (fun a => bind (promiseAll ps) (fun l => Ok (a :: l)))
  end.

(** What the DOM gives for one [entry] element: for each tag,
    [entry.getElementsByTagName(tag)[0]?.textContent], and for the first
    [link] element the value of [getAttribute("href")]. *)
Record EntryNode : Type := {
  titleText   : option jsstring;
  summaryText : option jsstring;
  contentText : option jsstring;
  linkHref    : option (option jsstring);
  updatedText : option jsstring;
  idText      : option jsstring
}.

(** The clock and the random generator as seen by one call of the parser:
    the text of the n-th [new Date().toISOString()] and of the n-th
    [Math.random()] written into a template literal. *)
Record World : Type := {
  toISOStringNow : nat -> jsstring;
  mathRandom     : nat -> jsstring
}.

(** A [fetch] response: [response.ok] and [await response.text()]. *)
Record Response : Type := {
  ok   : bool;
  text : result jsstring
}.

(** What the service takes from outside the files under [src/]. *)
Record Env : Type := {
  (** [String.prototype.toLowerCase] *)
  toLowerCase : jsstring -> jsstring;
  (** [FLATTENED_KEYWORDS] of [constants.ts] *)
  FLATTENED_KEYWORDS : list jsstring;
  (** [new DOMParser().parseFromString(xml, "text/xml")
      .getElementsByTagName("entry")] *)
  parseFromString : jsstring -> result (list EntryNode);
  (** [encodeURIComponent] *)
  encodeURIComponent : jsstring -> jsstring;
  (** [await fetch(url)] *)
  fetch : jsstring -> result Response;
  (** [new Date(s).getTime()], [None] for NaN *)
  dateGetTime : jsstring -> option Z;
  (** the clock and generator that the parse of a feed observes, by the
      feed's source type *)
  feedWorld : jsstring -> World
}.

(** [src/types.ts]: [interface Tender]. *)
Record Tender : Type := {
  id            : jsstring;
  title         : jsstring;
  summary       : jsstring;
  link          : jsstring;
  updated       : jsstring;
  amount        : option jsstring;
  organism      : option jsstring;
  contractType  : option jsstring;
  sourceType    : jsstring;
  keywordsFound : list jsstring;
  isRead        : bool
}.

(** [a || b] on an optional string: [b] when [a] is undefined or empty. *)
Definition orElse (a : option jsstring) (b : jsstring) : jsstring :=
  match a with
  | Some (c :: s) => c :: s
  | Some [] => b
  | None => b
  end.

(** A [Set<string>] in insertion order. *)
Definition setAdd (matches : list jsstring) (k : jsstring) : list jsstring :=
  if existsb (jsstring_eqb k) matches then matches else matches ++ [k].

(** [Array.prototype.sort(comparefn)]. ECMAScript asks for a stable sort
    and counts a comparison that is NaN as 0. When the comparisons are
    consistent (here: when no timestamp fails to parse) the result is
    determined, and it is the one of this insertion sort, in which an
    element moves behind another only when the comparison is positive.
    When they are not, the order is left to the engine: of the result of
    [arraySort] only what holds of every engine is then used, that it is a
    permutation of the array. *)
Definition sortCompare {A : Type} (comparefn : A -> A -> option Z) (x y : A) : Z :=
  match comparefn x y with
  | Some v => v
  | None => 0%Z
  end.

Fixpoint insertSorted {A : Type} (comparefn : A -> A -> option Z) (x : A) (l : list A)
  : list A :=
  match l with
  | [] => [x]
  | y :: l' =>
      if (0 <? sortCompare comparefn x y)%Z then y :: insertSorted comparefn x l'
      else x :: l
  end.

Definition arraySort {A : Type} (comparefn : A -> A -> option Z) (l : list A) : list A :=
  fold_right (insertSorted comparefn) [] l.

(* ================================================================== *)
(** * The service *)
(* ================================================================== *)

Section Service.

Variable E : Env.

Definition findKeywords (text : jsstring) : list jsstring :=
  let lowerText := toLowerCase E text in
  fold_left
    (fun matches k =>
       if includes lowerText (toLowerCase E k) then setAdd matches k else matches)
    (FLATTENED_KEYWORDS E) [].

Definition cleanSummary (text : jsstring) : jsstring :=
  if startsWith (toLowerCase E (trim text)) (str "id licitaci" ++ [c_oacute] ++ str "n")
     || startsWith (toLowerCase E (trim text)) (str "expediente")
  then
    let clean := stripTags text in
    clean
  else stripTags text.

(** [contentNode?.textContent || summaryNode?.textContent || ""] *)
Definition rawDescription (entry : EntryNode) : jsstring :=
  match contentText entry with
  | Some (c :: s) => c :: s
  | _ => orElse (summaryText entry) []
  end.

(** [`${title} ${summary} ${organism || ''}`] *)
Definition fullText (title summary : jsstring) (organism : option jsstring) : jsstring :=
  title ++ str " " ++ summary ++ str " " ++ orElse organism [].

(** Lines 211 to 214. *)
Definition classifyContract (fullText : jsstring) : jsstring :=
  if includes (toLowerCase E fullText) (str "servicios") then str "Servicios"
  else if includes (toLowerCase E fullText) (str "suministros") then str "Suministros"
  else if includes (toLowerCase E fullText) (str "obras") then str "Obras"
  else str "Otros".

(** The body of the loop of [parseAtomFeed] for one entry; [st] counts the
    clock readings and the random draws made so far. *)
Definition parseEntry (w : World) (sourceType : jsstring) (st : nat * nat)
  (entry : EntryNode) : Tender * (nat * nat) :=
  let title := orElse (titleText entry) (str "Sin t" ++ [c_iacute] ++ str "tulo") in
  let amount := extractAmount (rawDescription entry) in
  let organism := extractOrganism (rawDescription entry) in
  let summary := cleanSummary (rawDescription entry) in
  let link :=
    match linkHref entry with
    | Some href => orElse href []
    | None => []
    end in
  let '(updated, st1) :=
    match updatedText entry with
    | Some (c :: s) => (c :: s, st)
    | _ => (toISOStringNow w (fst st), (S (fst st), snd st))
    end in
  let '(id, st2) :=
    match idText entry with
    | Some (c :: s) => (c :: s, st1)
    | _ => (str "gen-" ++ mathRandom w (snd st1), (fst st1, S (snd st1)))
    end in
  let keywords := findKeywords (fullText title summary organism) in
  let contractType := classifyContract (fullText title summary organism) in
  ({| id := id;
      title := title;
      summary := if (300 <? length summary)%nat
                 then firstn 300 summary ++ str "..."
                 else summary;
      link := link;
      updated := updated;
      keywordsFound := keywords;
      isRead := false;
      sourceType := sourceType;
      contractType := Some contractType;
      amount := amount;
      organism := organism |}, st2).

Fixpoint parseEntries (w : World) (sourceType : jsstring) (st : nat * nat)
  (entries : list EntryNode) : list Tender :=
  match entries with
  | [] => []
  | entry :: rest =>
      let (t, st') := parseEntry w sourceType st entry in
      t :: parseEntries w sourceType st' rest
  end.

Definition parseAtomFeed (w : World) (xmlString sourceType : jsstring)
  : result (list Tender) :=
  bind (parseFromString E xmlString)
       (fun entries => Ok (parseEntries w sourceType (0, 0) entries)).

(** An element of [FEED_CONFIG]; its [sourceType] is [feedSourceType]
    here, [sourceType] being the field of [Tender]. *)
Record Feed : Type := { url : jsstring; feedSourceType : jsstring }.

Definition FEED_CONFIG : list Feed :=
  [ {| url := str "https://contrataciondelsectorpublico.gob.es/sindicacion/sindicacion_643/licitacionesPerfilesContratanteCompleto3.atom";
       feedSourceType := str "Perfiles Contratante" |};
    {| url := str "https://contrataciondelsectorpublico.gob.es/sindicacion/sindicacion_1044/PlataformasAgregadasSinMenores.atom";
       feedSourceType := str "Plataformas Agregadas" |};
    {| url := str "https://contrataciondelsectorpublico.gob.es/sindicacion/sindicacion_1143/contratosMenoresPerfilesContratantes.atom";
       feedSourceType := str "Contratos Menores" |} ].

(** One strategy of [fetchFeedContent]: [Some] is the text it returns,
    [None] that control goes on to the next strategy (the response is not
    ok, or something threw and was caught). *)
Definition fetchStrategy (proxyPrefix targetUrl : jsstring) : option jsstring :=
  match
    bind (fetch E (proxyPrefix ++ encodeURIComponent E targetUrl))
         (fun response =>
            if ok response
            then bind (text response) (fun t => Ok (Some t))
            else Ok None)
  with
  | Ok r => r
  | Throw _ => None
  end.

Definition fetchFeedContent (targetUrl : jsstring) : option jsstring :=
  match fetchStrategy (str "https://corsproxy.io/?") targetUrl with
  | Some t => Some t
  | None =>
      match fetchStrategy (str "https://api.allorigins.win/raw?url=") targetUrl with
      | Some t => Some t
      | None =>
          match fetchStrategy (str "https://api.codetabs.com/v1/proxy?quest=") targetUrl with
          | Some t => Some t
          | None => None
          end
      end
  end.

(** The callback mapped over [FEED_CONFIG]: the pipeline of one feed. *)
Definition feedPipeline (feed : Feed) : result (list Tender) :=
  match
    tryCatch
      (match fetchFeedContent (url feed) with
       | Some (c :: s) =>
           if startsWith (trim (c :: s)) (str "<")
           then bind (parseAtomFeed (feedWorld E (feedSourceType feed)) (c :: s)
                        (feedSourceType feed))
                     (fun tenders => Ok (Some tenders))
           else Ok None
       | _ => Ok None
       end)
      (fun _ => Ok None)
  with
  | Ok (Some tenders) => Ok tenders
  | Ok None => Ok []
  | Throw e => Throw e
  end.

(** The comparator of the final sort. *)
Definition byUpdatedDesc (a b : Tender) : option Z :=
  match dateGetTime E (updated b), dateGetTime E (updated a) with
  | Some tb, Some ta => Some (tb - ta)%Z
  | _, _ => None
  end.

Definition fetchTenders : result (list Tender) :=
  let promises := map feedPipeline FEED_CONFIG in
  let allTenders :=
    match tryCatch (bind (promiseAll promises) (fun results => Ok (concat results)))
                   (fun _ => Ok [])
    with
    | Ok l => l
    | Throw _ => []
    end in
  Ok (arraySort byUpdatedDesc allTenders).

End Service.

(* ================================================================== *)
(** * Notions used by the statements *)
(* ================================================================== *)

(** A captured numeric token: a non-empty run of [[\d\.,]]. *)
Definition isToken (tok : jsstring) : bool :=
  match tok with
  | [] => false
  | _ :: _ => forallb isTokenChar tok
  end.

(** [l1] is [l2] with some elements left out, the others in their order. *)
Inductive Subseq {A : Type} : list A -> list A -> Prop :=
| Subseq_nil : Subseq [] []
| Subseq_skip : forall x l1 l2, Subseq l1 l2 -> Subseq l1 (x :: l2)
| Subseq_keep : forall x l1 l2, Subseq l1 l2 -> Subseq (x :: l1) (x :: l2).

(** What the matcher computes, as a relation: [Matches ic r s s' c c']
    says that [r] matches a prefix of [s] and leaves [s'], the capture going
    from [c] to [c']. It does not say which match the matcher prefers. *)
Inductive Matches (ic : bool) : regex -> jsstring -> jsstring
                                -> option jsstring -> option jsstring -> Prop :=
| M_Lit : forall p s s' c,
    execLit ic p s = Some s' -> Matches ic (Lit p) s s' c c
| M_Star : forall p w s' c,
    forallb p w = true -> Matches ic (Star p) (w ++ s') s' c c
| M_StarLazy : forall p w s' c,
    forallb p w = true -> Matches ic (StarLazy p) (w ++ s') s' c c
| M_Plus : forall p x w s' c,
    p x = true -> forallb p w = true -> Matches ic (Plus p) (x :: w ++ s') s' c c
| M_OptNone : forall p s c, Matches ic (Opt p) s s c c
| M_OptSome : forall p x s c, p x = true -> Matches ic (Opt p) (x :: s) s c c
| M_Eos : forall c, Matches ic Eos [] [] c c
| M_Seq : forall r1 r2 s s1 s2 c c1 c2,
    Matches ic r1 s s1 c c1 -> Matches ic r2 s1 s2 c1 c2 ->
    Matches ic (Seq r1 r2) s s2 c c2
| M_AltL : forall r1 r2 s s' c c',
    Matches ic r1 s s' c c' -> Matches ic (Alt r1 r2) s s' c c'
| M_AltR : forall r1 r2 s s' c c',
    Matches ic r2 s s' c c' -> Matches ic (Alt r1 r2) s s' c c'
| M_Cap : forall r s s' c c',
    Matches ic r s s' c c' ->
    Matches ic (Cap r) s s' c (Some (firstn (length s - length s') s)).

(** [w] is [p] up to the case of its letters. *)
Definition sameUpToCase (p w : jsstring) : Prop :=
  Forall2 (fun x c => canonicalize x = canonicalize c) p w.

Definition isAmountLabel (lab : jsstring) : Prop :=
  sameUpToCase (str "Importe") lab
  \/ sameUpToCase (str "Valor estimado") lab
  \/ sameUpToCase (str "Presupuesto base") lab
  \/ sameUpToCase (str "Importe total") lab.

Definition isCurrencyMarker (cur : jsstring) : Prop :=
  cur = [c_euro] \/ sameUpToCase (str "EUR") cur \/ sameUpToCase (str "euros") cur.

(** What follows a numeric token that runs to its end. *)
Definition tokenEnds (rest : jsstring) : Prop :=
  match rest with
  | [] => True
  | c :: _ => isTokenChar c = false
  end.

(** The labeled pattern occurs in [text] with the numeric token [tok]: a
    label, then characters of one line, a colon, white space and the
    token, taken to its end. *)
Definition LabeledAmount (text tok : jsstring) : Prop :=
  exists pre lab mid ws rest,
    text = pre ++ lab ++ mid ++ [c_colon] ++ ws ++ tok ++ rest
    /\ isAmountLabel lab
    /\ forallb isAnyChar mid = true
    /\ forallb isWhiteSpace ws = true
    /\ isToken tok = true
    /\ tokenEnds rest.

(** The currency pattern occurs in [text] with the numeric token [tok]: the
    token, at most one white-space character and a currency marker. *)
Definition CurrencyAmount (text tok : jsstring) : Prop :=
  exists pre ws cur rest,
    text = pre ++ tok ++ ws ++ cur ++ rest
    /\ isToken tok = true
    /\ forallb isWhiteSpace ws = true
    /\ length ws <= 1
    /\ isCurrencyMarker cur.

(** A formatted amount of the [es-ES] euro convention with exactly two
    decimals: digits grouped by dots, a comma, two digits, a no-break space
    and the euro sign. *)
Definition isEuroAmount (amount : jsstring) : Prop :=
  exists ip d1 d2,
    amount = ip ++ [c_comma; d1; d2; c_nbsp; c_euro]
    /\ ip <> []
    /\ forallb (fun c => isDigit c || N.eqb c c_dot) ip = true
    /\ isDigit d1 = true /\ isDigit d2 = true.

(** [n / d] is within half a unit in the last place of [m * 2^e], for an
    exponent [e] that is not positive. *)
Definition withinHalfUlp (m e n d : Z) : Prop :=
  ((4 * m - 2) * d <= n * 2 ^ (2 - e) <= (4 * m + 2) * d)%Z.

(** [clean] is [text] without its tags. A tag is an opening angle bracket,
    the characters up to the next closing angle bracket, and that bracket;
    an opening bracket that is never closed goes with all that follows
    it. *)
Inductive TagsStripped : jsstring -> jsstring -> Prop :=
| TagsStripped_plain : forall s, ~ In c_lt s -> TagsStripped s s
| TagsStripped_tag : forall plain inner rest clean,
    ~ In c_lt plain -> ~ In c_gt inner ->
    TagsStripped rest clean ->
    TagsStripped (plain ++ c_lt :: inner ++ c_gt :: rest) (plain ++ clean)
| TagsStripped_open : forall plain inner,
    ~ In c_lt plain -> ~ In c_gt inner ->
    TagsStripped (plain ++ c_lt :: inner) plain.

(** Line 219: the stored summary. *)
Definition truncatedSummary (clean : jsstring) : jsstring :=
  if 300 <? length clean then firstn 300 clean ++ str "..." else clean.

(** The time a record is ordered by, for records whose [updated] parses. *)
Definition timeOf (E : Env) (t : Tender) : Z :=
  match dateGetTime E (updated t) with
  | Some v => v
  | None => 0%Z
  end.

(** [a] is at least as recent as [b]. *)
Definition newerOrSame (E : Env) (a b : Tender) : Prop :=
  (timeOf E b <= timeOf E a)%Z.

(** What a feed contributes to the aggregation. *)
Definition contribution (E : Env) (feed : Feed) : list Tender :=
  match feedPipeline E feed with
  | Ok tenders => tenders
  | Throw _ => []
  end.

(** The entry carries a non-empty text for its identifier, for its
    timestamp. *)
Definition hasIdText (entry : EntryNode) : bool :=
  match idText entry with
  | Some (_ :: _) => true
  | _ => false
  end.

Definition hasUpdatedText (entry : EntryNode) : bool :=
  match updatedText entry with
  | Some (_ :: _) => true
  | _ => false
  end.

(** Two records agree on every field but [id] and [updated]. *)
Definition agreeOnExtractedFields (a b : Tender) : Prop :=
  title a = title b /\ summary a = summary b /\ link a = link b
  /\ amount a = amount b /\ organism a = organism b
  /\ contractType a = contractType b /\ sourceType a = sourceType b
  /\ keywordsFound a = keywordsFound b /\ isRead a = isRead b.

(* ================================================================== *)
(** * A concrete environment, for evaluation *)
(* ================================================================== *)

Open Scope N_scope.

(** Lower-casing of Basic Latin and Latin-1 letters. *)
Definition toLowerCaseLatin1 (s : jsstring) : jsstring :=
  map (fun c =>
         if (65 <=? c) && (c <=? 90) then c + 32
         else if (192 <=? c) && (c <=? 222) && negb (c =? 215) then c + 32
         else c) s.

Close Scope N_scope.

Definition mkEntry (ident ttl body upd : jsstring) : EntryNode :=
  {| titleText := Some ttl;
     summaryText := Some body;
     contentText := None;
     linkHref := Some (Some (str "https://example.org/" ++ ident));
     updatedText := Some upd;
     idText := Some ident |}.

Definition entriesB : list EntryNode :=
  [ mkEntry (str "b1") (str "Servicios de limpieza") (str "Importe: 45.000,00 EUR") (str "2024-03-02");
    mkEntry (str "b2") (str "Obras de reforma") (str "Valor estimado: 600000.00") (str "2024-03-07");
    mkEntry (str "b3") (str "Suministros de oficina") (str "sin importe") (str "2024-01-15");
    mkEntry (str "b4") (str "Otros") (str "<p>12.500,50 euros</p>") (str "2024-03-05");
    mkEntry (str "b5") (str "Servicios y obras") (str "Importe: ,") (str "2023-12-31") ].

Definition entriesC : list EntryNode :=
  [ mkEntry (str "c1") (str "Contrato menor de servicios") (str "1500,50 EUR") (str "2024-03-06");
    mkEntry (str "c2") (str "Contrato menor de obras") (str "") (str "2024-02-01");
    mkEntry (str "c3") (str "Contrato menor") (str "") (str "2024-03-09") ].

(** Feed A: every relay fails. Feed B: the first relay answers. Feed C: the
    first relay answers with an error status and the second with the
    document. *)
Definition demoFetch (u : jsstring) : result Response :=
  if includes u (str "sindicacion_643") then Throw (str "timeout")
  else if includes u (str "sindicacion_1044")
  then Ok {| ok := true; text := Ok (str "<feed>B</feed>") |}
  else if includes u (str "corsproxy")
  then Ok {| ok := false; text := Ok (str "Bad Gateway") |}
  else Ok {| ok := true; text := Ok (str "  <feed>C</feed>") |}.

Definition demoParse (xml : jsstring) : result (list EntryNode) :=
  if includes xml (str "B") then Ok entriesB
  else if includes xml (str "C") then Ok entriesC
  else Ok [].

(** Dates written [YYYY-MM-DD], ordered by the number [YYYYMMDD]. *)
Definition demoGetTime (s : jsstring) : option Z :=
  match s with
  | [y1; y2; y3; y4; 45%N; m1; m2; 45%N; d1; d2] =>
      if forallb isDigit [y1; y2; y3; y4; m1; m2; d1; d2]
      then Some (Z.of_N (digitsValue [y1; y2; y3; y4; m1; m2; d1; d2]))
      else None
  | _ => None
  end.

Definition demoWorld : World :=
  {| toISOStringNow := fun _ => str "2024-03-10";
     mathRandom := fun n => str "0." ++ decimalDigits (N.of_nat (7 * n + 3)) |}.

Definition laterWorld : World :=
  {| toISOStringNow := fun _ => str "2024-03-11";
     mathRandom := fun n => str "0." ++ decimalDigits (N.of_nat (5 * n + 1)) |}.

Definition demoEnv : Env :=
  {| toLowerCase := toLowerCaseLatin1;
     FLATTENED_KEYWORDS := [str "servicios"; str "limpieza"; str "Servicios"; str "obras"; str "servicios"];
     parseFromString := demoParse;
     encodeURIComponent := fun u => u;
     fetch := demoFetch;
     dateGetTime := demoGetTime;
     feedWorld := fun _ => demoWorld |}.

(** An entry with an identifier and no timestamp, and an environment whose
    parser finds that entry in every document. *)
Definition untimedEntry : EntryNode :=
  {| titleText := Some (str "Obras de urbanizaci" ++ [c_oacute] ++ str "n");
     summaryText := Some (str "Presupuesto base: 1.250.000,00 EUR");
     contentText := None;
     linkHref := None;
     updatedText := None;
     idText := Some (str "urn:licitacion:1") |}.

Definition untimedEnv : Env :=
  {| toLowerCase := toLowerCaseLatin1;
     FLATTENED_KEYWORDS := [str "obras"];
     parseFromString := fun _ => Ok [untimedEntry];
     encodeURIComponent := fun u => u;
     fetch := demoFetch;
     dateGetTime := demoGetTime;
     feedWorld := fun _ => demoWorld |}.

(** The environment of the keyword example: one keyword configured. *)
Definition oneKeywordEnv : Env :=
  {| toLowerCase := toLowerCaseLatin1;
     FLATTENED_KEYWORDS := [str "servicios"];
     parseFromString := demoParse;
     encodeURIComponent := fun u => u;
     fetch := demoFetch;
     dateGetTime := demoGetTime;
     feedWorld := fun _ => demoWorld |}.

(** An environment in which every relay answers with a plain-text page and
    the parser, were it called, would find entries. *)
Definition plainTextEnv : Env :=
  {| toLowerCase := toLowerCaseLatin1;
     FLATTENED_KEYWORDS := [];
     parseFromString := fun _ => Ok entriesB;
     encodeURIComponent := fun u => u;
     fetch := fun _ => Ok {| ok := true; text := Ok (str "  Service Unavailable") |};
     dateGetTime := demoGetTime;
     feedWorld := fun _ => demoWorld |}.

(* ================================================================== *)
(** * Lemmas on strings *)
(* ================================================================== *)

Lemma jsstring_eqb_eq : forall a b, jsstring_eqb a b = true <-> a = b.
Proof.
  induction a as [|x a IH]; destruct b as [|y b]; simpl; split; intro H;
    try reflexivity; try discriminate.
  - apply andb_true_iff in H. destruct H as [Hx Hab].
    apply N.eqb_eq in Hx. apply IH in Hab. now subst.
  - injection H as -> ->. rewrite N.eqb_refl. simpl. now apply IH.
Qed.

Lemma existsb_jsstring_eqb : forall k l,
  existsb (jsstring_eqb k) l = true <-> In k l.
Proof.
  intros k l. rewrite existsb_exists. split.
  - intros [x [Hin Heq]]. apply jsstring_eqb_eq in Heq. now subst.
  - intro Hin. exists k. split; [assumption | now apply jsstring_eqb_eq].
Qed.

(* ================================================================== *)
(** * Keyword matching *)
(* ================================================================== *)

Lemma setAdd_In : forall matches k x,
  In x (setAdd matches k) <-> In x matches \/ x = k.
Proof.
  intros matches k x. unfold setAdd.
  destruct (existsb (jsstring_eqb k) matches) eqn:Hex.
  - apply existsb_jsstring_eqb in Hex. split; [auto | intros [H | ->]; assumption].
  - rewrite in_app_iff. simpl. intuition.
Qed.

Lemma setAdd_NoDup : forall matches k, NoDup matches -> NoDup (setAdd matches k).
Proof.
  intros matches k Hnd. unfold setAdd.
  destruct (existsb (jsstring_eqb k) matches) eqn:Hex; [assumption |].
  assert (Hnot : ~ In k matches).
  { intro Hin. apply existsb_jsstring_eqb in Hin. congruence. }
  clear Hex. induction Hnd as [|y l Hy Hnd IH]; simpl.
  - constructor; [intros [] | constructor].
  - constructor.
    + rewrite in_app_iff. simpl. intros [H | [H | []]]; [contradiction |].
      subst. apply Hnot. now left.
    + apply IH. intro H. apply Hnot. now right.
Qed.

Lemma Subseq_snoc_skip : forall (A : Type) (l1 l2 : list A) x,
  Subseq l1 l2 -> Subseq l1 (l2 ++ [x]).
Proof.
  intros A l1 l2 x H. induction H; simpl.
  - apply Subseq_skip, Subseq_nil.
  - now constructor.
  - now constructor.
Qed.

Lemma Subseq_snoc_keep : forall (A : Type) (l1 l2 : list A) x,
  Subseq l1 l2 -> Subseq (l1 ++ [x]) (l2 ++ [x]).
Proof.
  intros A l1 l2 x H. induction H; simpl.
  - apply Subseq_keep, Subseq_nil.
  - now constructor.
  - now constructor.
Qed.

Section KeywordScan.

Variable hit : jsstring -> bool.

Let step (matches : list jsstring) (k : jsstring) : list jsstring :=
  if hit k then setAdd matches k else matches.

Lemma scan_In : forall keywords acc x,
  In x (fold_left step keywords acc)
  <-> In x acc \/ (In x keywords /\ hit x = true).
Proof.
  induction keywords as [|k ks IH]; intros acc x; simpl.
  - tauto.
  - rewrite IH. unfold step. destruct (hit k) eqn:Hk.
    + rewrite setAdd_In. split.
      * intros [[H | ->] | [H1 H2]]; auto.
      * intros [H | [[-> | H1] H2]]; auto.
    + split.
      * intros [H | [H1 H2]]; auto.
      * intros [H | [[-> | H1] H2]]; auto. congruence.
Qed.

Lemma scan_NoDup : forall keywords acc,
  NoDup acc -> NoDup (fold_left step keywords acc).
Proof.
  induction keywords as [|k ks IH]; intros acc Hnd; simpl; [assumption |].
  apply IH. unfold step. destruct (hit k); [now apply setAdd_NoDup | assumption].
Qed.

Lemma scan_Subseq : forall keywords seen acc,
  Subseq acc seen -> Subseq (fold_left step keywords acc) (seen ++ keywords).
Proof.
  induction keywords as [|k ks IH]; intros seen acc Hsub; simpl.
  - now rewrite app_nil_r.
  - replace (seen ++ k :: ks) with ((seen ++ [k]) ++ ks)
      by (now rewrite <- app_assoc).
    apply IH. unfold step, setAdd.
    destruct (hit k); [| now apply Subseq_snoc_skip].
    destruct (existsb (jsstring_eqb k) acc).
    + now apply Subseq_snoc_skip.
    + now apply Subseq_snoc_keep.
Qed.

(** Without repeated keywords the scan is a filter. *)
Lemma scan_filter : forall keywords acc,
  NoDup (acc ++ keywords) ->
  fold_left step keywords acc = acc ++ filter hit keywords.
Proof.
  induction keywords as [|k ks IH]; intros acc Hnd; simpl.
  - now rewrite app_nil_r.
  - assert (Hk : ~ In k acc).
    { apply NoDup_remove_2 in Hnd. intro H. apply Hnd. apply in_or_app. now left. }
    unfold step at 2. destruct (hit k).
    + unfold setAdd. destruct (existsb (jsstring_eqb k) acc) eqn:Hex.
      * apply existsb_jsstring_eqb in Hex. contradiction.
      * rewrite IH.
        -- now rewrite <- app_assoc.
        -- rewrite <- app_assoc. exact Hnd.
    + apply IH. now apply NoDup_remove_1 in Hnd.
Qed.

End KeywordScan.

(** C5. For every text and every configured keyword list, [findKeywords]
    tests each keyword on its own by containment of its lower-cased form in
    the lower-cased text; the list it returns has no repeated entry, lists
    the matched keywords in the order of the configured list, and depends on
    the text only through its lower-cased form, so neither the casing nor
    the number of occurrences of a keyword in the text changes it. When the
    configured list has no repetition the result is that list filtered. *)
Theorem findKeywords_ordered_set : forall (E : Env) (text : jsstring),
  NoDup (findKeywords E text)
  /\ Subseq (findKeywords E text) (FLATTENED_KEYWORDS E)
  /\ (forall k, In k (findKeywords E text)
        <-> In k (FLATTENED_KEYWORDS E)
            /\ includes (toLowerCase E text) (toLowerCase E k) = true)
  /\ (forall text', toLowerCase E text' = toLowerCase E text ->
        findKeywords E text' = findKeywords E text)
  /\ (NoDup (FLATTENED_KEYWORDS E) ->
        findKeywords E text
        = filter (fun k => includes (toLowerCase E text) (toLowerCase E k))
                 (FLATTENED_KEYWORDS E))
  /\ findKeywords oneKeywordEnv (str "Servicios Servicios SERVICIOS de limpieza")
     = [str "servicios"]
  /\ findKeywords demoEnv (str "Servicios Servicios SERVICIOS de limpieza")
     = [str "servicios"; str "limpieza"; str "Servicios"].
Proof.
  intros E text. unfold findKeywords.
  split; [| split; [| split; [| split; [| split; [| split]]]]].
  - apply scan_NoDup. constructor.
  - apply (scan_Subseq (fun k => includes (toLowerCase E text) (toLowerCase E k))
             (FLATTENED_KEYWORDS E) (seen := []) (acc := [])). constructor.
  - intro k. rewrite scan_In. simpl. tauto.
  - intros text' Heq. now rewrite Heq.
  - intro Hnd. now rewrite scan_filter.
  - vm_compute. reflexivity.
  - vm_compute. reflexivity.
Qed.

(* ================================================================== *)
(** * Tag stripping *)
(* ================================================================== *)

(** A greedy star in front of a continuation that cannot fail succeeds, and
    what remains is no longer than the input. *)
Lemma execStar_total : forall p (k : jsstring -> option MatchState) s,
  (forall s', exists r c, k s' = Some (r, c) /\ length r <= length s') ->
  exists r c, execStar p s k = Some (r, c) /\ length r <= length s.
Proof.
  intros p k s Hk. induction s as [|x s IH]; simpl.
  - apply Hk.
  - destruct (p x).
    + destruct IH as [r [c [-> Hlen]]]. exists r, c. split; [reflexivity | lia].
    + apply Hk.
Qed.

Lemma matchHere_tag_open : forall s,
  exists rest cap,
    matchHere false tagRegex (c_lt :: s) = Some (rest, cap)
    /\ length rest <= length s.
Proof.
  intro s. unfold matchHere, tagRegex. cbn [exec execLit]. unfold charMatches.
  rewrite N.eqb_refl.
  apply execStar_total. intros [|x s'].
  - exists [], None. split; [reflexivity | simpl; lia].
  - destruct (isGt x).
    + exists s', None. split; [reflexivity | simpl; lia].
    + exists (x :: s'), None. split; [reflexivity | lia].
Qed.

Lemma matchHere_tag_other : forall c s,
  c <> c_lt -> matchHere false tagRegex (c :: s) = None.
Proof.
  intros c s Hc. unfold matchHere, tagRegex. cbn [exec execLit]. unfold charMatches.
  destruct (N.eqb_spec c_lt c) as [Heq | _]; [congruence | reflexivity].
Qed.

Lemma replaceAllEmpty_tag_no_lt : forall s skip,
  ~ In c_lt (replaceAllEmpty false tagRegex skip s).
Proof.
  induction s as [|c s IH]; intros skip; [simpl; tauto |].
  cbn [replaceAllEmpty].
  destruct skip as [|n]; [| apply IH].
  destruct (N.eq_dec c c_lt) as [-> | Hc].
  - destruct (matchHere_tag_open s) as [rest [cap [Hm Hlen]]].
    rewrite Hm.
    destruct (length (c_lt :: s) - length rest) eqn:Hd.
    + change (length (c_lt :: s)) with (S (length s)) in Hd. lia.
    + apply IH.
  - rewrite (matchHere_tag_other s Hc).
    intros [H | H]; [congruence | now apply IH in H].
Qed.

Lemma stripTags_no_lt : forall text, ~ In c_lt (stripTags text).
Proof. intro text. apply replaceAllEmpty_tag_no_lt. Qed.

(** Text without an opening angle bracket is left as it is. *)
Lemma stripTags_plain : forall s, ~ In c_lt s -> stripTags s = s.
Proof.
  unfold stripTags. induction s as [|c s IH]; intro Hno; [reflexivity |].
  cbn [replaceAllEmpty].
  rewrite matchHere_tag_other by (intro H; apply Hno; now left).
  f_equal. apply IH. intro H. apply Hno. now right.
Qed.

(** A string is cut at the first occurrence of a character. *)
Lemma split_at_first : forall (c : N) (s : jsstring),
  ~ In c s \/ exists pre post, s = pre ++ c :: post /\ ~ In c pre.
Proof.
  intros c. induction s as [|x s IH]; [left; tauto |].
  destruct (N.eq_dec x c) as [-> | Hx].
  - right. exists [], s. split; [reflexivity | tauto].
  - destruct IH as [Hno | [pre [post [-> Hpre]]]].
    + left. intros [H | H]; [congruence | contradiction].
    + right. exists (x :: pre), post. split; [reflexivity |].
      intros [H | H]; [congruence | contradiction].
Qed.

Lemma first_occurrence_unique : forall (c : N) (p1 p2 q1 q2 : jsstring),
  p1 ++ c :: q1 = p2 ++ c :: q2 -> ~ In c p1 -> ~ In c p2 -> p1 = p2 /\ q1 = q2.
Proof.
  intros c. induction p1 as [|x p1 IH]; intros [|y p2] q1 q2 Heq H1 H2.
  - injection Heq as ->. auto.
  - injection Heq as <- _. exfalso. apply H2. now left.
  - injection Heq as -> _. exfalso. apply H1. now left.
  - injection Heq as <- Heq. destruct (IH p2 q1 q2 Heq) as [-> ->].
    + intro H. apply H1. now right.
    + intro H. apply H2. now right.
    + auto.
Qed.

(** The greedy star of [[^>]*] takes every character up to the first
    closing bracket. *)
Lemma execStar_isNotGt : forall (k : jsstring -> option MatchState) inner s,
  ~ In c_gt inner ->
  match s with [] => True | c :: _ => c = c_gt end ->
  (forall s', k s' <> None) ->
  execStar isNotGt (inner ++ s) k = k s.
Proof.
  intros k. induction inner as [|x inner IH]; intros s Hno Hs Hk.
  - destruct s as [|c s]; [reflexivity |]. subst c. reflexivity.
  - cbn [app execStar].
    assert (Hx : isNotGt x = true).
    { unfold isNotGt. apply negb_true_iff, N.eqb_neq. intros ->. apply Hno. now left. }
    rewrite Hx, IH; [| intro H; apply Hno; now right | assumption | assumption].
    destruct (k s) eqn:Hks; [reflexivity | now apply Hk in Hks].
Qed.

Lemma matchHere_tag_closed : forall inner rest,
  ~ In c_gt inner ->
  matchHere false tagRegex (c_lt :: inner ++ c_gt :: rest) = Some (rest, None).
Proof.
  intros inner rest Hno. unfold matchHere, tagRegex. cbn [exec execLit].
  unfold charMatches. rewrite N.eqb_refl.
  rewrite execStar_isNotGt; [reflexivity | assumption | reflexivity |].
  intros [|c s']; [discriminate |]. destruct (isGt c); discriminate.
Qed.

Lemma matchHere_tag_unclosed : forall inner,
  ~ In c_gt inner ->
  matchHere false tagRegex (c_lt :: inner) = Some ([], None).
Proof.
  intros inner Hno. unfold matchHere, tagRegex. cbn [exec execLit].
  unfold charMatches. rewrite N.eqb_refl.
  rewrite <- (app_nil_r inner) at 1.
  rewrite execStar_isNotGt; [reflexivity | assumption | exact I |].
  intros [|c s']; [discriminate |]. destruct (isGt c); discriminate.
Qed.

(** What remains of a match is dropped character by character. *)
Lemma replaceAllEmpty_skip : forall ic r w rest,
  replaceAllEmpty ic r (length w) (w ++ rest) = replaceAllEmpty ic r 0 rest.
Proof.
  intros ic r. induction w as [|x w IH]; intro rest.
  - destruct rest; reflexivity.
  - cbn [length app replaceAllEmpty]. apply IH.
Qed.

Lemma replaceAllEmpty_skip_all : forall ic r w n,
  length w <= n -> replaceAllEmpty ic r n w = [].
Proof.
  intros ic r. induction w as [|x w IH]; intros n Hn; [reflexivity |].
  destruct n as [|n]; [simpl in Hn; lia |].
  cbn [replaceAllEmpty]. apply IH. simpl in Hn. lia.
Qed.

Lemma stripTags_plain_app : forall plain s,
  ~ In c_lt plain -> stripTags (plain ++ s) = plain ++ stripTags s.
Proof.
  unfold stripTags. induction plain as [|c plain IH]; intros s Hno; [reflexivity |].
  cbn [app replaceAllEmpty].
  rewrite matchHere_tag_other by (intro H; apply Hno; now left).
  f_equal. apply IH. intro H. apply Hno. now right.
Qed.

Lemma stripTags_tag : forall inner rest,
  ~ In c_gt inner -> stripTags (c_lt :: inner ++ c_gt :: rest) = stripTags rest.
Proof.
  intros inner rest Hno. unfold stripTags. cbn [replaceAllEmpty].
  rewrite (matchHere_tag_closed inner rest Hno).
  replace (length (c_lt :: inner ++ c_gt :: rest) - length rest)
    with (S (length (inner ++ [c_gt]))).
  - replace (inner ++ c_gt :: rest) with ((inner ++ [c_gt]) ++ rest)
      by (now rewrite <- app_assoc).
    apply replaceAllEmpty_skip.
  - cbn [length]. rewrite !length_app. cbn [length]. lia.
Qed.

Lemma stripTags_unclosed : forall inner,
  ~ In c_gt inner -> stripTags (c_lt :: inner) = [].
Proof.
  intros inner Hno. unfold stripTags. cbn [replaceAllEmpty].
  rewrite (matchHere_tag_unclosed inner Hno). cbn [length Nat.sub].
  apply replaceAllEmpty_skip_all. lia.
Qed.

Lemma stripTags_TagsStripped : forall text, TagsStripped text (stripTags text).
Proof.
  intro text. remember (length text) as n eqn:Hn. revert text Hn.
  induction n as [n IH] using lt_wf_ind. intros text Hn.
  destruct (split_at_first c_lt text) as [Hno | [plain [tail [-> Hplain]]]].
  - rewrite (stripTags_plain text Hno). now constructor.
  - rewrite (stripTags_plain_app plain _ Hplain).
    destruct (split_at_first c_gt tail) as [Hopen | [inner [rest [-> Hinner]]]].
    + rewrite (stripTags_unclosed tail Hopen), app_nil_r. now constructor.
    + rewrite (stripTags_tag inner rest Hinner). constructor; [assumption | assumption |].
      apply (IH (length rest)); [| reflexivity].
      subst n. rewrite !length_app. cbn [length]. rewrite length_app. cbn [length]. lia.
Qed.

Lemma TagsStripped_functional : forall text c1 c2,
  TagsStripped text c1 -> TagsStripped text c2 -> c1 = c2.
Proof.
  intros text c1 c2 H1. revert c2.
  induction H1 as [s Hs | plain inner rest clean Hp Hi Hr IH | plain inner Hp Hi];
    intros c2 H2.
  - inversion H2 as [s' Hs' | plain' inner' rest' clean' Hp' Hi' Hr' Heq
                     | plain' inner' Hp' Hi' Heq]; subst.
    + reflexivity.
    + exfalso. apply Hs. apply in_or_app. right. now left.
    + exfalso. apply Hs. apply in_or_app. right. now left.
  - inversion H2 as [s' Hs' | plain' inner' rest' clean' Hp' Hi' Hr' Heq
                     | plain' inner' Hp' Hi' Heq]; subst.
    + exfalso. apply Hs'. apply in_or_app. right. now left.
    + destruct (first_occurrence_unique _ _ _ _ _ Heq Hp' Hp) as [-> Htail].
      destruct (first_occurrence_unique _ _ _ _ _ Htail Hi' Hi) as [-> ->].
      f_equal. now apply IH.
    + destruct (first_occurrence_unique _ _ _ _ _ Heq Hp' Hp) as [-> Htail].
      exfalso. apply Hi'. rewrite Htail. apply in_or_app. right. now left.
  - inversion H2 as [s' Hs' | plain' inner' rest' clean' Hp' Hi' Hr' Heq
                     | plain' inner' Hp' Hi' Heq]; subst.
    + exfalso. apply Hs'. apply in_or_app. right. now left.
    + destruct (first_occurrence_unique _ _ _ _ _ Heq Hp' Hp) as [-> Htail].
      exfalso. apply Hi. rewrite <- Htail. apply in_or_app. right. now left.
    + destruct (first_occurrence_unique _ _ _ _ _ Heq Hp' Hp) as [-> _]. reflexivity.
Qed.

Lemma TagsStripped_Subseq : forall text clean, TagsStripped text clean -> Subseq clean text.
Proof.
  assert (Hrefl : forall s : jsstring, Subseq s s).
  { induction s; [apply Subseq_nil | now apply Subseq_keep]. }
  assert (Hdrop : forall s : jsstring, Subseq [] s).
  { induction s; [apply Subseq_nil | now apply Subseq_skip]. }
  assert (Happ : forall (p a b : jsstring), Subseq a b -> Subseq (p ++ a) (p ++ b)).
  { induction p; intros a0 b0 H; simpl; [assumption | apply Subseq_keep; auto]. }
  assert (Hskip : forall (w a b : jsstring), Subseq a b -> Subseq a (w ++ b)).
  { induction w; intros a0 b0 H; simpl; [assumption | apply Subseq_skip; auto]. }
  intros text clean H.
  induction H as [s Hs | plain inner rest clean Hp Hi Hr IH | plain inner Hp Hi].
  - apply Hrefl.
  - apply Happ. apply Subseq_skip. apply Hskip. apply Subseq_skip. exact IH.
  - rewrite <- (app_nil_r plain) at 1. apply Happ. apply Hdrop.
Qed.

Lemma cleanSummary_stripTags : forall E text, cleanSummary E text = stripTags text.
Proof.
  intros E text. unfold cleanSummary.
  destruct (startsWith _ _ || startsWith _ _); reflexivity.
Qed.

(* ================================================================== *)
(** * The fields of a parsed entry *)
(* ================================================================== *)

Lemma parseEntry_fields : forall E w src st entry,
  let t := fst (parseEntry E w src st entry) in
  let ttl := orElse (titleText entry) (str "Sin t" ++ [c_iacute] ++ str "tulo") in
  let clean := cleanSummary E (rawDescription entry) in
  let org := extractOrganism (rawDescription entry) in
  title t = ttl
  /\ summary t = truncatedSummary clean
  /\ amount t = extractAmount (rawDescription entry)
  /\ organism t = org
  /\ contractType t = Some (classifyContract E (fullText ttl clean org))
  /\ keywordsFound t = findKeywords E (fullText ttl clean org)
  /\ sourceType t = src
  /\ isRead t = false
  /\ link t = match linkHref entry with Some href => orElse href [] | None => [] end.
Proof.
  intros E w src st entry. unfold parseEntry.
  destruct (updatedText entry) as [[|c s]|];
    destruct (idText entry) as [[|c' s']|]; simpl; repeat split; reflexivity.
Qed.

Lemma parseEntry_updated : forall E w src st entry,
  hasUpdatedText entry = true ->
  Some (updated (fst (parseEntry E w src st entry))) = updatedText entry.
Proof.
  intros E w src st entry. unfold parseEntry, hasUpdatedText.
  destruct (updatedText entry) as [[|c s]|]; try discriminate.
  destruct (idText entry) as [[|c' s']|]; reflexivity.
Qed.

Lemma parseEntry_id : forall E w src st entry,
  hasIdText entry = true ->
  Some (id (fst (parseEntry E w src st entry))) = idText entry.
Proof.
  intros E w src st entry. unfold parseEntry, hasIdText.
  destruct (idText entry) as [[|c' s']|]; try discriminate.
  destruct (updatedText entry) as [[|c s]|]; reflexivity.
Qed.

Lemma parseEntries_Forall : forall E (P : Tender -> Prop),
  (forall w src st entry, P (fst (parseEntry E w src st entry))) ->
  forall w src entries st, Forall P (parseEntries E w src st entries).
Proof.
  intros E P HP w src. induction entries as [|e es IH]; intro st; simpl.
  - constructor.
  - specialize (HP w src st e).
    destruct (parseEntry E w src st e) as [t st']. constructor; [exact HP | apply IH].
Qed.

Lemma parseEntries_length : forall E w src entries st,
  length (parseEntries E w src st entries) = length entries.
Proof.
  intros E w src. induction entries as [|e es IH]; intro st; simpl; [reflexivity |].
  destruct (parseEntry E w src st e) as [t st']. simpl. now rewrite IH.
Qed.

Lemma truncatedSummary_length : forall clean, length (truncatedSummary clean) <= 303.
Proof.
  intro clean. unfold truncatedSummary.
  destruct (Nat.ltb_spec 300 (length clean)) as [Hlt | Hle].
  - rewrite length_app, length_firstn.
    change (length (str "...")) with 3. lia.
  - lia.
Qed.

Lemma In_firstn : forall (A : Type) n (l : list A) x, In x (firstn n l) -> In x l.
Proof.
  intros A n. induction n as [|n IH]; intros [|y l] x H; simpl in H; try contradiction.
  destruct H as [-> | H]; [now left | right; now apply IH].
Qed.

Lemma truncatedSummary_no_lt : forall clean,
  ~ In c_lt clean -> ~ In c_lt (truncatedSummary clean).
Proof.
  intros clean Hno. unfold truncatedSummary.
  destruct (300 <? length clean); [| assumption].
  rewrite in_app_iff. intros [H | H].
  - apply Hno. eapply In_firstn; eassumption.
  - simpl in H. unfold c_lt in H.
    repeat (destruct H as [H | H]; [discriminate |]). exact H.
Qed.

(** C6. For every parsed entry the stored [summary] is the description
    with its tags stripped, cut to its first 300 characters followed by an
    ellipsis when the stripped text is longer than 300, so that it never
    exceeds 303 characters; this holds for every record of every list that
    [parseAtomFeed] returns. Stripped means: the text outside the tags is
    kept as it is and in its order, each tag (from an opening angle bracket
    to the next closing one, or to the end of the text when there is none)
    is left out, and nothing else is; a description without an opening
    angle bracket is kept whole. *)
Theorem summary_stripped_and_truncated :
  forall (E : Env) (w : World) (src : jsstring) (st : nat * nat) (entry : EntryNode),
  let t := fst (parseEntry E w src st entry) in
  let clean := cleanSummary E (rawDescription entry) in
  clean = stripTags (rawDescription entry)
  /\ ~ In c_lt clean
  /\ summary t = (if 300 <? length clean then firstn 300 clean ++ str "..." else clean)
  /\ length (summary t) <= 303
  /\ ~ In c_lt (summary t)
  /\ (forall xml tenders,
        parseAtomFeed E w xml src = Ok tenders ->
        Forall (fun r => length (summary r) <= 303 /\ ~ In c_lt (summary r)) tenders)
  /\ (forall text, TagsStripped (rawDescription entry) text <-> text = clean)
  /\ Subseq clean (rawDescription entry)
  /\ (~ In c_lt (rawDescription entry) -> clean = rawDescription entry)
  /\ cleanSummary E (str "<p>Obras de <b>mejora</b> del firme</p><br/> en la N-232 <a href=")
     = str "Obras de mejora del firme en la N-232 ".
Proof.
  intros E w src st entry t clean.
  assert (Hclean : clean = stripTags (rawDescription entry))
    by apply cleanSummary_stripTags.
  assert (Hno : ~ In c_lt clean) by (rewrite Hclean; apply stripTags_no_lt).
  assert (Hrel : TagsStripped (rawDescription entry) clean)
    by (rewrite Hclean; apply stripTags_TagsStripped).
  destruct (parseEntry_fields E w src st entry) as [_ [Hsum _]].
  fold t clean in Hsum.
  repeat match goal with |- _ /\ _ => split end; try assumption.
  - rewrite Hsum. apply truncatedSummary_length.
  - rewrite Hsum. now apply truncatedSummary_no_lt.
  - intros xml tenders Hparse. unfold parseAtomFeed in Hparse.
    destruct (parseFromString E xml) as [entries | e]; simpl in Hparse; [| discriminate].
    injection Hparse as <-.
    apply parseEntries_Forall. intros w0 src0 st0 e0.
    destruct (parseEntry_fields E w0 src0 st0 e0) as [_ [Hs _]].
    rewrite Hs. split.
    + apply truncatedSummary_length.
    + apply truncatedSummary_no_lt. rewrite cleanSummary_stripTags.
      apply stripTags_no_lt.
  - intro text. split.
    + intro H. exact (TagsStripped_functional H Hrel).
    + intros ->. exact Hrel.
  - now apply TagsStripped_Subseq.
  - intro Hplain. rewrite Hclean. now apply stripTags_plain.
  - rewrite cleanSummary_stripTags. vm_compute. reflexivity.
Qed.

(* ================================================================== *)
(** * Contract-type classification *)
(* ================================================================== *)

Lemma classifyContract_cases : forall E surface,
  let lower := toLowerCase E surface in
  (includes lower (str "servicios") = true ->
     classifyContract E surface = str "Servicios")
  /\ (includes lower (str "servicios") = false ->
      includes lower (str "suministros") = true ->
      classifyContract E surface = str "Suministros")
  /\ (includes lower (str "servicios") = false ->
      includes lower (str "suministros") = false ->
      includes lower (str "obras") = true ->
      classifyContract E surface = str "Obras")
  /\ (includes lower (str "servicios") = false ->
      includes lower (str "suministros") = false ->
      includes lower (str "obras") = false ->
      classifyContract E surface = str "Otros").
Proof.
  intros E surface lower. unfold classifyContract. fold lower.
  repeat split; intros; repeat match goal with H : includes _ _ = _ |- _ => rewrite H; clear H end;
    reflexivity.
Qed.

Lemma classifyContract_closed : forall E surface,
  In (classifyContract E surface)
     [str "Servicios"; str "Suministros"; str "Obras"; str "Otros"].
Proof.
  intros E surface. unfold classifyContract.
  destruct (includes _ (str "servicios")); [now left |].
  destruct (includes _ (str "suministros")); [right; now left |].
  destruct (includes _ (str "obras")); [right; right; now left |].
  right; right; right; now left.
Qed.

(** C4. For every parsed entry the contract type is decided on one text
    surface, the title, the cleaned summary and the contracting body joined
    by spaces (an absent body contributes nothing), lower-cased, by
    substring tests in a fixed order: "servicios" gives "Servicios",
    otherwise "suministros" gives "Suministros", otherwise "obras" gives
    "Obras", otherwise "Otros". The field is always present and is one of
    these four values, and a surface that contains both "servicios" and
    "obras" is classified "Servicios". *)
Theorem contractType_priority :
  forall (E : Env) (w : World) (src : jsstring) (st : nat * nat) (entry : EntryNode),
  let t := fst (parseEntry E w src st entry) in
  let surface :=
    title t ++ str " " ++ cleanSummary E (rawDescription entry) ++ str " "
      ++ match organism t with Some o => o | None => [] end in
  let lower := toLowerCase E surface in
  (includes lower (str "servicios") = true ->
     contractType t = Some (str "Servicios"))
  /\ (includes lower (str "servicios") = false ->
      includes lower (str "suministros") = true ->
      contractType t = Some (str "Suministros"))
  /\ (includes lower (str "servicios") = false ->
      includes lower (str "suministros") = false ->
      includes lower (str "obras") = true ->
      contractType t = Some (str "Obras"))
  /\ (includes lower (str "servicios") = false ->
      includes lower (str "suministros") = false ->
      includes lower (str "obras") = false ->
      contractType t = Some (str "Otros"))
  /\ In (contractType t)
        [Some (str "Servicios"); Some (str "Suministros");
         Some (str "Obras"); Some (str "Otros")]
  /\ contractType t <> None
  /\ (includes lower (str "servicios") = true ->
      includes lower (str "obras") = true ->
      contractType t = Some (str "Servicios")).
Proof.
  intros E w src st entry t surface lower.
  destruct (parseEntry_fields E w src st entry)
    as [Htitle [_ [_ [Horg [Hct _]]]]].
  fold t in Htitle, Horg, Hct.
  assert (Hsurface :
    fullText (orElse (titleText entry) (str "Sin t" ++ [c_iacute] ++ str "tulo"))
             (cleanSummary E (rawDescription entry))
             (extractOrganism (rawDescription entry)) = surface).
  { unfold surface, fullText. rewrite Htitle, Horg.
    destruct (extractOrganism (rawDescription entry)) as [[|c o]|]; reflexivity. }
  rewrite Hsurface in Hct. rewrite Hct.
  destruct (classifyContract_cases E surface) as [H1 [H2 [H3 H4]]].
  fold lower in H1, H2, H3, H4.
  split; [| split; [| split; [| split; [| split; [| split]]]]].
  - intro H. now rewrite H1.
  - intros Ha Hb. now rewrite H2.
  - intros Ha Hb Hc. now rewrite H3.
  - intros Ha Hb Hc. now rewrite H4.
  - destruct (classifyContract_closed E surface) as [H | [H | [H | [H | []]]]];
      rewrite <- H; simpl; auto.
  - discriminate.
  - intros Ha _. now rewrite H1.
Qed.

(** An entry whose title is in capitals and names both kinds. *)
Lemma contractType_priority_witness :
  contractType
    (fst (parseEntry demoEnv demoWorld (str "Perfiles Contratante") (0, 0)
            (mkEntry (str "x1") (str "SERVICIOS y OBRAS de mantenimiento")
                     (str "<b>Expediente</b> 12") (str "2024-03-01"))))
  = Some (str "Servicios").
Proof.
  apply (contractType_priority demoEnv demoWorld (str "Perfiles Contratante") (0, 0)
           (mkEntry (str "x1") (str "SERVICIOS y OBRAS de mantenimiento")
                    (str "<b>Expediente</b> 12") (str "2024-03-01"))).
  - vm_compute. reflexivity.
  - vm_compute. reflexivity.
Defined.

(* ================================================================== *)
(** * The sniff in front of the parser *)
(* ================================================================== *)

(** C7. For every document that a relay returns and that does not begin,
    once trimmed, with the markup start token, the feed's pipeline returns
    the empty list of records: the parser is not called and nothing is
    thrown, whatever the parser would have done with the document. *)
Theorem non_markup_document_yields_no_record :
  forall (E : Env) (feed : Feed) (doc : jsstring),
  fetchFeedContent E (url feed) = Some doc ->
  startsWith (trim doc) (str "<") = false ->
  feedPipeline E feed = Ok [].
Proof.
  intros E feed doc Hfetch Hsniff. unfold feedPipeline.
  rewrite Hfetch. destruct doc as [|c s]; [reflexivity |].
  rewrite Hsniff. reflexivity.
Qed.

Lemma non_markup_document_yields_no_record_witness :
  fetchFeedContent plainTextEnv
    (str "https://contrataciondelsectorpublico.gob.es/sindicacion/sindicacion_643/licitacionesPerfilesContratanteCompleto3.atom")
  = Some (str "  Service Unavailable")
  /\ parseFromString plainTextEnv (str "  Service Unavailable") = Ok entriesB
  /\ feedPipeline plainTextEnv
       {| url := str "https://contrataciondelsectorpublico.gob.es/sindicacion/sindicacion_643/licitacionesPerfilesContratanteCompleto3.atom";
          feedSourceType := str "Perfiles Contratante" |}
     = Ok [].
Proof.
  split; [vm_compute; reflexivity | split; [reflexivity |]].
  apply (@non_markup_document_yields_no_record plainTextEnv
           {| url := str "https://contrataciondelsectorpublico.gob.es/sindicacion/sindicacion_643/licitacionesPerfilesContratanteCompleto3.atom";
              feedSourceType := str "Perfiles Contratante" |}
           (str "  Service Unavailable")).
  - vm_compute. reflexivity.
  - vm_compute. reflexivity.
Defined.

(* ================================================================== *)
(** * The matcher and the relation [Matches] *)
(* ================================================================== *)

Lemma execStar_sound : forall p k s m,
  execStar p s k = Some m ->
  exists w s', s = w ++ s' /\ forallb p w = true /\ k s' = Some m.
Proof.
  intros p k. induction s as [|x s IH]; intros m H; simpl in H.
  - exists [], []. auto.
  - destruct (p x) eqn:Hpx.
    + destruct (execStar p s k) as [m'|] eqn:Hrec.
      * injection H as <-. destruct (IH _ eq_refl) as [w [s' [-> [Hw Hk]]]].
        exists (x :: w), s'. simpl. rewrite Hpx, Hw. auto.
      * exists [], (x :: s). auto.
    + exists [], (x :: s). auto.
Qed.

Lemma execStarLazy_sound : forall p k s m,
  execStarLazy p s k = Some m ->
  exists w s', s = w ++ s' /\ forallb p w = true /\ k s' = Some m.
Proof.
  intros p k. induction s as [|x s IH]; intros m H; simpl in H.
  - destruct (k []) eqn:Hk; [| discriminate]. injection H as <-.
    exists [], []. auto.
  - destruct (k (x :: s)) eqn:Hk.
    + injection H as <-. exists [], (x :: s). auto.
    + destruct (p x) eqn:Hpx; [| discriminate].
      destruct (IH _ H) as [w [s' [-> [Hw Hk']]]].
      exists (x :: w), s'. simpl. rewrite Hpx, Hw. auto.
Qed.

Lemma execStar_complete : forall p k w s',
  forallb p w = true -> k s' <> None -> execStar p (w ++ s') k <> None.
Proof.
  intros p k w s' Hw Hk. induction w as [|x w IH]; simpl.
  - destruct s' as [|y s']; [assumption |]. simpl.
    destruct (p y); [| assumption].
    destruct (execStar p s' k); [discriminate | assumption].
  - simpl in Hw. apply andb_true_iff in Hw. destruct Hw as [Hx Hw].
    rewrite Hx. destruct (execStar p (w ++ s') k) eqn:Hrec.
    + discriminate.
    + now apply IH in Hw.
Qed.

Lemma execStarLazy_complete : forall p k w s',
  forallb p w = true -> k s' <> None -> execStarLazy p (w ++ s') k <> None.
Proof.
  intros p k w s' Hw Hk. induction w as [|x w IH]; simpl.
  - destruct s' as [|y s']; simpl; destruct (k _); try discriminate; contradiction.
  - simpl in Hw. apply andb_true_iff in Hw. destruct Hw as [Hx Hw].
    destruct (k (x :: w ++ s')); [discriminate |]. rewrite Hx. now apply IH.
Qed.

(** Every result of the matcher is a match of the relation. *)
Lemma exec_sound : forall ic r s cap k m,
  exec ic r s cap k = Some m ->
  exists s' cap', Matches ic r s s' cap cap' /\ k s' cap' = Some m.
Proof.
  intros ic. induction r as [p | p | p | p | p | | r1 IH1 r2 IH2 | r1 IH1 r2 IH2 | r IH];
    intros s cap k m H; cbn [exec] in H.
  - destruct (execLit ic p s) as [s'|] eqn:Hl; [| discriminate].
    exists s', cap. split; [now constructor | assumption].
  - apply execStar_sound in H. destruct H as [w [s' [-> [Hw Hk]]]].
    exists s', cap. split; [now constructor | assumption].
  - apply execStarLazy_sound in H. destruct H as [w [s' [-> [Hw Hk]]]].
    exists s', cap. split; [now constructor | assumption].
  - destruct s as [|x s]; [discriminate |].
    destruct (p x) eqn:Hpx; [| discriminate].
    apply execStar_sound in H. destruct H as [w [s' [-> [Hw Hk]]]].
    exists s', cap. split; [now constructor | assumption].
  - destruct s as [|x s].
    + exists [], cap. split; [constructor | assumption].
    + destruct (p x) eqn:Hpx.
      * destruct (k s cap) as [m'|] eqn:Hk.
        -- injection H as <-. exists s, cap. split; [now constructor | assumption].
        -- exists (x :: s), cap. split; [constructor | assumption].
      * exists (x :: s), cap. split; [constructor | assumption].
  - destruct s as [|x s]; [| discriminate].
    exists [], cap. split; [constructor | assumption].
  - apply IH1 in H. destruct H as [s1 [c1 [Hm1 H]]].
    apply IH2 in H. destruct H as [s2 [c2 [Hm2 H]]].
    exists s2, c2. split; [econstructor; eassumption | assumption].
  - destruct (exec ic r1 s cap k) as [m'|] eqn:H1.
    + injection H as <-. apply IH1 in H1. destruct H1 as [s' [c' [Hm Hk]]].
      exists s', c'. split; [now apply M_AltL | assumption].
    + apply IH2 in H. destruct H as [s' [c' [Hm Hk]]].
      exists s', c'. split; [now apply M_AltR | assumption].
  - apply IH in H. destruct H as [s' [c' [Hm Hk]]].
    exists s', (Some (firstn (length s - length s') s)).
    split; [econstructor; eassumption | assumption].
Qed.

(** Backtracking is exhaustive: where the relation has a match after which
    the continuation succeeds, the matcher returns a result. *)
Lemma exec_complete : forall ic r s s' cap cap',
  Matches ic r s s' cap cap' ->
  forall c0 k, (forall c, k s' c <> None) -> exec ic r s c0 k <> None.
Proof.
  intros ic r s s' cap cap' H.
  induction H as [p s s' c Hl | p w s' c Hw | p w s' c Hw | p x w s' c Hx Hw
                  | p s c | p x s c Hx | c
                  | r1 r2 s s1 s2 c c1 c2 H1 IH1 H2 IH2
                  | r1 r2 s s' c c' H1 IH1 | r1 r2 s s' c c' H2 IH2
                  | r s s' c c' H1 IH1];
    intros c0 k Hk; cbn [exec].
  - rewrite Hl. apply Hk.
  - apply execStar_complete; [assumption | apply Hk].
  - apply execStarLazy_complete; [assumption | apply Hk].
  - rewrite Hx. apply execStar_complete; [assumption | apply Hk].
  - destruct s as [|x s]; [apply Hk |].
    destruct (p x); [| apply Hk].
    destruct (k s c0); [discriminate | apply Hk].
  - rewrite Hx. destruct (k s c0) eqn:Hks; [discriminate |].
    exfalso. now apply (Hk c0).
  - apply Hk.
  - apply IH1. intro c3. apply IH2. exact Hk.
  - destruct (exec ic r1 s c0 k) eqn:He; [discriminate |].
    exfalso. now apply (IH1 c0 k Hk).
  - destruct (exec ic r1 s c0 k) eqn:He; [discriminate |]. now apply IH2.
  - apply IH1. intro c3. apply Hk.
Qed.

Lemma search_matchHere : forall ic r s cap,
  search ic r s = Some cap ->
  exists pre s0 rest, s = pre ++ s0 /\ matchHere ic r s0 = Some (rest, cap).
Proof.
  intros ic r. induction s as [|x s IH]; intros cap H; cbn [search] in H.
  - destruct (matchHere ic r []) as [[rest c]|] eqn:Hm; [| discriminate].
    injection H as <-. exists [], [], rest. auto.
  - destruct (matchHere ic r (x :: s)) as [[rest c]|] eqn:Hm.
    + injection H as <-. exists [], (x :: s), rest. auto.
    + destruct (IH _ H) as [pre [s0 [rest [-> Hm']]]].
      exists (x :: pre), s0, rest. auto.
Qed.

Lemma search_sound : forall ic r s cap,
  search ic r s = Some cap ->
  exists pre s0 s', s = pre ++ s0 /\ Matches ic r s0 s' None cap.
Proof.
  intros ic r s cap H. apply search_matchHere in H.
  destruct H as [pre [s0 [rest [-> Hm]]]]. unfold matchHere in Hm.
  apply exec_sound in Hm. destruct Hm as [s' [c' [Hm Hk]]].
  injection Hk as <- <-. eauto.
Qed.

Lemma search_complete : forall ic r pre s0 s' cap cap',
  Matches ic r s0 s' cap cap' -> search ic r (pre ++ s0) <> None.
Proof.
  intros ic r pre s0 s' cap cap' Hm.
  assert (Hhere : matchHere ic r s0 <> None).
  { unfold matchHere. eapply exec_complete; [eassumption | discriminate]. }
  induction pre as [|x pre IH]; simpl.
  - destruct s0 as [|y s0]; cbn [search];
      destruct (matchHere ic r _) as [[rest c]|]; try discriminate; contradiction.
  - destruct (matchHere ic r (x :: pre ++ s0)) as [[rest c]|]; [discriminate | exact IH].
Qed.

(** Inversion of [Matches], one constructor of [regex] at a time. *)
Lemma Matches_Seq_inv : forall ic r1 r2 s s2 c c2,
  Matches ic (Seq r1 r2) s s2 c c2 ->
  exists s1 c1, Matches ic r1 s s1 c c1 /\ Matches ic r2 s1 s2 c1 c2.
Proof. intros ic r1 r2 s s2 c c2 H. inversion H; subst. eauto. Qed.

Lemma Matches_Alt_inv : forall ic r1 r2 s s' c c',
  Matches ic (Alt r1 r2) s s' c c' ->
  Matches ic r1 s s' c c' \/ Matches ic r2 s s' c c'.
Proof. intros ic r1 r2 s s' c c' H. inversion H; subst; auto. Qed.

Lemma Matches_Lit_inv : forall ic p s s' c c',
  Matches ic (Lit p) s s' c c' -> execLit ic p s = Some s' /\ c' = c.
Proof. intros ic p s s' c c' H. inversion H; subst; auto. Qed.

Lemma Matches_Star_inv : forall ic p s s' c c',
  Matches ic (Star p) s s' c c' ->
  exists w, s = w ++ s' /\ forallb p w = true /\ c' = c.
Proof. intros ic p s s' c c' H. inversion H; subst; eauto. Qed.

Lemma Matches_StarLazy_inv : forall ic p s s' c c',
  Matches ic (StarLazy p) s s' c c' ->
  exists w, s = w ++ s' /\ forallb p w = true /\ c' = c.
Proof. intros ic p s s' c c' H. inversion H; subst; eauto. Qed.

Lemma Matches_Plus_inv : forall ic p s s' c c',
  Matches ic (Plus p) s s' c c' ->
  exists x w, s = (x :: w) ++ s' /\ forallb p (x :: w) = true /\ c' = c.
Proof.
  intros ic p s s' c c' H. inversion H; subst.
  exists x, w. simpl. repeat split. apply andb_true_iff. split; assumption.
Qed.

Lemma Matches_Opt_inv : forall ic p s s' c c',
  Matches ic (Opt p) s s' c c' ->
  exists w, s = w ++ s' /\ forallb p w = true /\ length w <= 1 /\ c' = c.
Proof.
  intros ic p s s' c c' H. inversion H; subst.
  - exists []. simpl. auto.
  - exists [x]. simpl. rewrite andb_true_r. auto.
Qed.

Lemma Matches_Eos_inv : forall ic s s' c c',
  Matches ic Eos s s' c c' -> s = [] /\ s' = [] /\ c' = c.
Proof. intros ic s s' c c' H. inversion H; subst; auto. Qed.

Lemma Matches_Cap_inv : forall ic r s s' c c',
  Matches ic (Cap r) s s' c c' ->
  (exists c1, Matches ic r s s' c c1)
  /\ c' = Some (firstn (length s - length s') s).
Proof. intros ic r s s' c c' H. inversion H; subst. eauto. Qed.

Lemma firstn_consumed : forall (w s' : jsstring),
  firstn (length (w ++ s') - length s') (w ++ s') = w.
Proof.
  intros w s'. rewrite length_app.
  replace (length w + length s' - length s') with (length w) by lia.
  rewrite firstn_app, Nat.sub_diag, firstn_all. simpl. apply app_nil_r.
Qed.

Lemma execLit_sameUpToCase : forall p s s',
  execLit true p s = Some s' <-> exists w, s = w ++ s' /\ sameUpToCase p w.
Proof.
  unfold sameUpToCase. induction p as [|x p IH]; intros s s'; simpl.
  - split.
    + intro H. injection H as ->. exists []. split; [reflexivity | constructor].
    + intros [w [-> Hw]]. inversion Hw. reflexivity.
  - destruct s as [|c s].
    + split; [discriminate |]. intros [w [Hs Hw]]. inversion Hw; subst. discriminate.
    + unfold charMatches. destruct (N.eqb_spec (canonicalize x) (canonicalize c)) as [Heq | Hne].
      * rewrite IH. split.
        -- intros [w [-> Hw]]. exists (c :: w). split; [reflexivity | now constructor].
        -- intros [w [Hs Hw]]. inversion Hw; subst. injection Hs as -> ->. eauto.
      * split; [discriminate |]. intros [w [Hs Hw]]. inversion Hw; subst.
        injection Hs as -> ->. contradiction.
Qed.

Lemma isToken_inv : forall tok,
  isToken tok = true -> exists x w, tok = x :: w /\ isTokenChar x = true /\ forallb isTokenChar w = true.
Proof.
  intros [|x w] H; [discriminate |]. simpl in H. apply andb_true_iff in H.
  destruct H. eauto.
Qed.

Ltac canonicalize_cases :=
  unfold canonicalize;
  repeat match goal with
         | |- context [N.leb ?a ?b] => destruct (N.leb_spec a b)
         | |- context [N.eqb ?a ?b] => destruct (N.eqb_spec a b)
         end;
  cbn [andb negb]; intros; try lia.

(** Under the [i] flag a colon and a euro sign match only themselves. *)
Lemma canonicalize_colon : forall b,
  canonicalize c_colon = canonicalize b -> b = c_colon.
Proof. intro b. unfold c_colon. canonicalize_cases. Qed.

Lemma canonicalize_euro : forall b,
  canonicalize c_euro = canonicalize b -> b = c_euro.
Proof. intro b. unfold c_euro. canonicalize_cases. Qed.

(** The part of a sequence that has matched, and what is left to run. *)
Lemma exec_Seq_sound : forall ic r1 r2 s cap k m,
  exec ic (Seq r1 r2) s cap k = Some m ->
  exists s1 c1, Matches ic r1 s s1 cap c1 /\ exec ic r2 s1 c1 k = Some m.
Proof. intros ic r1 r2 s cap k m H. cbn [exec] in H. now apply exec_sound in H. Qed.

(** A greedy star in front of a continuation that cannot fail stops where
    the class stops. *)
Lemma execStar_greedy : forall p (k : jsstring -> option MatchState) s,
  (forall s', k s' <> None) ->
  exists w s',
    s = w ++ s' /\ forallb p w = true
    /\ match s' with [] => True | c :: _ => p c = false end
    /\ execStar p s k = k s'.
Proof.
  intros p k s Hk. induction s as [|x s IH]; simpl.
  - exists [], []. auto.
  - destruct (p x) eqn:Hpx.
    + destruct IH as [w [s' [-> [Hw [Hend Heq]]]]].
      exists (x :: w), s'. simpl. rewrite Hpx, Hw, Heq.
      destruct (k s') eqn:Hks; [auto | now apply Hk in Hks].
    + exists [], (x :: s). simpl. auto.
Qed.

(** The token group at the end of a pattern captures a whole token. *)
Lemma exec_token_group_last : forall s c rest cap,
  exec true (Cap (Plus isTokenChar)) s c (fun s' cap' => Some (s', cap'))
  = Some (rest, cap) ->
  exists tok, s = tok ++ rest /\ cap = Some tok /\ isToken tok = true /\ tokenEnds rest.
Proof.
  intros s c rest cap H. cbn [exec] in H.
  destruct s as [|x s]; [discriminate |].
  destruct (isTokenChar x) eqn:Hx; [| discriminate].
  match type of H with
  | execStar _ _ ?k = _ =>
      destruct (execStar_greedy isTokenChar k s) as [w [s' [Hs [Hw [Hend Heq]]]]];
        [discriminate | rewrite Heq in H]
  end.
  subst s. injection H as <- <-.
  exists (x :: w). split; [reflexivity |].
  split; [f_equal; exact (firstn_consumed (x :: w) s') |].
  split; [simpl; now rewrite Hx, Hw | exact Hend].
Qed.

(** An attempt of the labeled pattern that succeeds has matched a label,
    characters of one line, a colon, white space and a whole token. *)
Lemma matchHere_labelRegex : forall s0 rest cap,
  matchHere true labelRegex s0 = Some (rest, cap) ->
  exists lab mid ws tok,
    cap = Some tok
    /\ s0 = lab ++ mid ++ [c_colon] ++ ws ++ tok ++ rest
    /\ isAmountLabel lab /\ forallb isAnyChar mid = true
    /\ forallb isWhiteSpace ws = true /\ isToken tok = true /\ tokenEnds rest.
Proof.
  intros s0 rest cap H. unfold matchHere, labelRegex in H.
  apply exec_Seq_sound in H. destruct H as [s1 [c1 [Hlab H]]].
  apply exec_Seq_sound in H. destruct H as [s2 [c2 [Hmid H]]].
  apply exec_Seq_sound in H. destruct H as [s3 [c3 [Hcolon H]]].
  apply exec_Seq_sound in H. destruct H as [s4 [c4 [Hws Htok]]].
  apply Matches_StarLazy_inv in Hmid. destruct Hmid as [mid [-> [Hmid ->]]].
  apply Matches_Lit_inv in Hcolon. destruct Hcolon as [Hcolon ->].
  apply Matches_Star_inv in Hws. destruct Hws as [ws [-> [Hws ->]]].
  apply exec_token_group_last in Htok.
  destruct Htok as [tok [-> [-> [Htok Hend]]]].
  apply execLit_sameUpToCase in Hcolon. destruct Hcolon as [wc [-> Hwc]].
  assert (wc = [c_colon]) as ->.
  { inversion Hwc as [|a b la lb Hab Hrest]; subst. inversion Hrest; subst.
    f_equal. now apply canonicalize_colon. }
  assert (Hl : exists lab, s0 = lab ++ mid ++ [c_colon] ++ ws ++ tok ++ rest
                           /\ isAmountLabel lab).
  { unfold isAmountLabel.
    repeat (apply Matches_Alt_inv in Hlab; destruct Hlab as [Hlab | Hlab]);
      apply Matches_Lit_inv in Hlab; destruct Hlab as [Hlit _];
      apply execLit_sameUpToCase in Hlit; destruct Hlit as [lab [-> Hsame]];
      exists lab; auto 6. }
  clear Hlab. destruct Hl as [lab [-> Hlab]].
  exists lab, mid, ws, tok. repeat split; auto.
Qed.

Lemma sameUpToCase_refl : forall p, sameUpToCase p p.
Proof. unfold sameUpToCase. induction p; constructor; auto. Qed.

Lemma Matches_Lit_intro : forall p w s' c,
  sameUpToCase p w -> Matches true (Lit p) (w ++ s') s' c c.
Proof.
  intros p w s' c H. constructor. apply execLit_sameUpToCase. eauto.
Qed.

Lemma Matches_token_intro : forall tok s' c,
  isToken tok = true ->
  Matches true (Cap (Plus isTokenChar)) (tok ++ s') s' c (Some tok).
Proof.
  intros tok s' c H. apply isToken_inv in H. destruct H as [x [w [-> [Hx Hw]]]].
  rewrite <- (firstn_consumed (x :: w) s') at 2.
  apply M_Cap with (c' := c). simpl. now constructor.
Qed.

Lemma labelRegex_Matches_intro : forall lab mid ws tok rest,
  isAmountLabel lab -> forallb isAnyChar mid = true ->
  forallb isWhiteSpace ws = true -> isToken tok = true ->
  Matches true labelRegex (lab ++ mid ++ [c_colon] ++ ws ++ tok ++ rest) rest
          None (Some tok).
Proof.
  intros lab mid ws tok rest Hlab Hmid Hws Htok. unfold labelRegex.
  eapply M_Seq with (s1 := mid ++ [c_colon] ++ ws ++ tok ++ rest) (c1 := None).
  { destruct Hlab as [H | [H | [H | H]]].
    - apply M_AltL. now apply Matches_Lit_intro.
    - apply M_AltR, M_AltL. now apply Matches_Lit_intro.
    - apply M_AltR, M_AltR, M_AltL. now apply Matches_Lit_intro.
    - apply M_AltR, M_AltR, M_AltR. now apply Matches_Lit_intro. }
  eapply M_Seq; [now apply M_StarLazy |].
  eapply M_Seq; [apply Matches_Lit_intro, sameUpToCase_refl |].
  eapply M_Seq; [now apply M_Star |].
  now apply Matches_token_intro.
Qed.

(** The labeled pattern is found exactly in the texts in which it occurs,
    and what is captured is a numeric token of one of its occurrences. *)
Lemma search_labelRegex : forall s,
  (forall cap, search true labelRegex s = Some cap ->
     exists tok, cap = Some tok /\ LabeledAmount s tok)
  /\ (forall tok, LabeledAmount s tok -> search true labelRegex s <> None).
Proof.
  intro s. split.
  - intros cap H. apply search_matchHere in H.
    destruct H as [pre [s0 [rest [-> Hm]]]].
    apply matchHere_labelRegex in Hm.
    destruct Hm as [lab [mid [ws [tok [-> [-> [Hlab [Hmid [Hws [Htok Hend]]]]]]]]]].
    exists tok. split; [reflexivity |].
    exists pre, lab, mid, ws, rest. auto 7.
  - intros tok [pre [lab [mid [ws [rest [-> [Hlab [Hmid [Hws [Htok _]]]]]]]]]].
    eapply search_complete. now apply labelRegex_Matches_intro.
Qed.

Lemma currencyRegex_Matches : forall s0 s' cap,
  Matches true currencyRegex s0 s' None cap ->
  exists tok ws cur,
    cap = Some tok
    /\ s0 = tok ++ ws ++ cur ++ s'
    /\ isToken tok = true /\ forallb isWhiteSpace ws = true /\ length ws <= 1
    /\ isCurrencyMarker cur.
Proof.
  intros s0 s' cap H. unfold currencyRegex in H.
  apply Matches_Seq_inv in H. destruct H as [s1 [c1 [Htok H]]].
  apply Matches_Seq_inv in H. destruct H as [s2 [c2 [Hws Hcur]]].
  apply Matches_Cap_inv in Htok. destruct Htok as [[c3 Htok] ->].
  apply Matches_Plus_inv in Htok. destruct Htok as [x [w [-> [Htok _]]]].
  rewrite firstn_consumed in Hws.
  apply Matches_Opt_inv in Hws. destruct Hws as [ws [-> [Hws [Hlen ->]]]].
  assert (Hc : exists cur, s2 = cur ++ s' /\ isCurrencyMarker cur /\ cap = Some (x :: w)).
  { unfold isCurrencyMarker.
    repeat (apply Matches_Alt_inv in Hcur; destruct Hcur as [Hcur | Hcur]);
      apply Matches_Lit_inv in Hcur; destruct Hcur as [Hlit ->];
      apply execLit_sameUpToCase in Hlit; destruct Hlit as [cur [-> Hsame]];
      exists cur; auto.
    repeat split; auto. left.
    inversion Hsame as [|a b la lb Hab Hrest]; subst. inversion Hrest; subst.
    f_equal. now apply canonicalize_euro. }
  destruct Hc as [cur [-> [Hcur' ->]]].
  exists (x :: w), ws, cur. repeat split; auto.
Qed.

Lemma currencyRegex_Matches_intro : forall tok ws cur rest,
  isToken tok = true -> forallb isWhiteSpace ws = true -> length ws <= 1 ->
  isCurrencyMarker cur ->
  Matches true currencyRegex (tok ++ ws ++ cur ++ rest) rest None (Some tok).
Proof.
  intros tok ws cur rest Htok Hws Hlen Hcur. unfold currencyRegex.
  eapply M_Seq; [now apply Matches_token_intro |].
  eapply M_Seq with (s1 := cur ++ rest) (c1 := Some tok).
  { destruct ws as [|x [|y ws]]; simpl in *; [constructor | | lia].
    constructor. now rewrite andb_true_r in Hws. }
  destruct Hcur as [-> | [H | H]].
  - apply M_AltL. apply Matches_Lit_intro, sameUpToCase_refl.
  - apply M_AltR, M_AltL. now apply Matches_Lit_intro.
  - apply M_AltR, M_AltR. now apply Matches_Lit_intro.
Qed.

Lemma search_currencyRegex : forall s,
  (forall cap, search true currencyRegex s = Some cap ->
     exists tok, cap = Some tok /\ CurrencyAmount s tok)
  /\ (forall tok, CurrencyAmount s tok -> search true currencyRegex s <> None).
Proof.
  intro s. split.
  - intros cap H. apply search_sound in H. destruct H as [pre [s0 [s' [-> Hm]]]].
    apply currencyRegex_Matches in Hm.
    destruct Hm as [tok [ws [cur [-> [-> [Htok [Hws [Hlen Hcur]]]]]]]].
    exists tok. split; [reflexivity |].
    exists pre, ws, cur, s'. auto.
  - intros tok [pre [ws [cur [rest [-> [Htok [Hws [Hlen Hcur]]]]]]]].
    eapply search_complete. now apply currencyRegex_Matches_intro.
Qed.

(* ================================================================== *)
(** * Numeric tokens *)
(* ================================================================== *)

Lemma isDigit_range : forall c, isDigit c = true <-> (48 <= c <= 57)%N.
Proof.
  intro c. unfold isDigit. rewrite andb_true_iff, !N.leb_le. tauto.
Qed.

Lemma isTokenChar_cases : forall c,
  isTokenChar c = true <-> isDigit c = true \/ c = c_dot \/ c = c_comma.
Proof.
  intro c. unfold isTokenChar. rewrite !orb_true_iff, !N.eqb_eq. tauto.
Qed.

Lemma isDigit_not_whitespace : forall c, isDigit c = true -> isWhiteSpace c = false.
Proof.
  intros c H. apply isDigit_range in H.
  assert (Hc : (c = 48 \/ c = 49 \/ c = 50 \/ c = 51 \/ c = 52 \/ c = 53
                \/ c = 54 \/ c = 55 \/ c = 56 \/ c = 57)%N) by lia.
  repeat (destruct Hc as [-> | Hc]; [reflexivity |]). subst. reflexivity.
Qed.

Lemma isTokenChar_not_whitespace : forall c, isTokenChar c = true -> isWhiteSpace c = false.
Proof.
  intros c H. apply isTokenChar_cases in H. destruct H as [H | [-> | ->]].
  - now apply isDigit_not_whitespace.
  - reflexivity.
  - reflexivity.
Qed.

Lemma trimStart_head : forall c s, isWhiteSpace c = false -> trimStart (c :: s) = c :: s.
Proof. intros c s H. simpl. now rewrite H. Qed.

(** A token has no white space around it: [trim] leaves it as it is. *)
Lemma trim_token : forall tok, forallb isTokenChar tok = true -> trim tok = tok.
Proof.
  intros tok H. unfold trim, trimEnd.
  assert (Hstart : forall l, forallb isTokenChar l = true -> trimStart l = l).
  { intros [|c l] Hl; [reflexivity |]. simpl in Hl. apply andb_true_iff in Hl.
    apply trimStart_head. now apply isTokenChar_not_whitespace. }
  rewrite (Hstart tok H). rewrite Hstart.
  - apply rev_involutive.
  - rewrite forallb_forall in *. intros x Hx. apply H. now apply in_rev.
Qed.

Lemma includesChar_In : forall s c, includesChar s c = true <-> In c s.
Proof.
  intros s c. unfold includesChar. rewrite existsb_exists. split.
  - intros [x [Hin Heq]]. apply N.eqb_eq in Heq. now subst.
  - intro Hin. exists c. split; [assumption | apply N.eqb_refl].
Qed.

Lemma includesChar_false : forall s c, includesChar s c = false <-> ~ In c s.
Proof.
  intros s c. rewrite <- includesChar_In. destruct (includesChar s c); split; intro H;
    try reflexivity; try discriminate; try (intro; discriminate). now contradiction H.
Qed.

(** The early return of lines 55 to 61 changes nothing: the amount is the
    formatted value of the cleaned-up token, when it parses. *)
Lemma normalizeAndFormatAmount_eq : forall raw,
  normalizeAndFormatAmount raw
  = option_map formatCurrency (parseFloat (europeanCleanup (trim raw))).
Proof.
  intro raw. unfold normalizeAndFormatAmount, plainFormAmount.
  set (clean := trim raw).
  destruct (includesChar clean c_dot && negb (includesChar clean c_comma)) eqn:Hdots.
  - apply andb_true_iff in Hdots. destruct Hdots as [Hd Hc].
    apply negb_true_iff in Hc.
    assert (Hclean : europeanCleanup clean = clean).
    { unfold europeanCleanup. rewrite Hc, andb_false_r. reflexivity. }
    rewrite Hclean.
    destruct (indexOf clean c_dot =? Z.of_nat (length clean) - 3)%Z;
      destruct (parseFloat clean); reflexivity.
  - destruct (parseFloat (europeanCleanup clean)); reflexivity.
Qed.

Lemma takeDigits_app : forall ds rest,
  forallb isDigit ds = true ->
  match rest with [] => True | c :: _ => isDigit c = false end ->
  takeDigits (ds ++ rest) = (ds, rest).
Proof.
  induction ds as [|d ds IH]; intros rest Hds Hrest; simpl.
  - destruct rest as [|c rest]; [reflexivity |]. simpl. now rewrite Hrest.
  - simpl in Hds. apply andb_true_iff in Hds. destruct Hds as [Hd Hds].
    rewrite Hd, IH by assumption. reflexivity.
Qed.

Lemma takeDigits_spec : forall s,
  let (ds, rest) := takeDigits s in
  s = ds ++ rest /\ forallb isDigit ds = true
  /\ match rest with [] => True | c :: _ => isDigit c = false end.
Proof.
  induction s as [|c s IH]; simpl; [auto |].
  destruct (isDigit c) eqn:Hc.
  - destruct (takeDigits s) as [ds rest]. destruct IH as [-> [Hds Hrest]].
    simpl. rewrite Hc. auto.
  - simpl. auto.
Qed.

Lemma trimStart_token_like : forall s,
  match s with [] => True | c :: _ => isTokenChar c = true end -> trimStart s = s.
Proof.
  intros [|c s] H; [reflexivity |].
  apply trimStart_head. now apply isTokenChar_not_whitespace.
Qed.

(** The literal read when there is a dot: the digits before the first dot
    are the integer part and the digits that follow it the decimals. *)
Lemma literalValue_decimal : forall ip fp rest,
  forallb isDigit ip = true -> forallb isDigit fp = true ->
  match rest with [] => True | c :: _ => isDigit c = false end ->
  ip ++ fp <> [] ->
  literalValue (ip ++ c_dot :: fp ++ rest)
  = Some {| mantissa := digitsValue (ip ++ fp); scale := length fp |}.
Proof.
  intros ip fp rest Hip Hfp Hrest Hne. unfold literalValue.
  rewrite trimStart_token_like.
  - rewrite (takeDigits_app ip (c_dot :: fp ++ rest)) by (auto; reflexivity).
    rewrite N.eqb_refl. rewrite (takeDigits_app fp rest) by assumption.
    destruct ip as [|i ip]; [| reflexivity].
    destruct fp as [|f fp]; [now contradiction Hne | reflexivity].
  - destruct ip as [|i ip]; simpl.
    + reflexivity.
    + simpl in Hip. apply andb_true_iff in Hip. destruct Hip as [Hi _].
      unfold isTokenChar. now rewrite Hi.
Qed.

Lemma parseFloat_decimal : forall ip fp rest,
  forallb isDigit ip = true -> forallb isDigit fp = true ->
  match rest with [] => True | c :: _ => isDigit c = false end ->
  ip ++ fp <> [] ->
  parseFloat (ip ++ c_dot :: fp ++ rest)
  = Some (nearestBinary64
            {| mantissa := digitsValue (ip ++ fp); scale := length fp |}).
Proof.
  intros ip fp rest Hip Hfp Hrest Hne. unfold parseFloat.
  now rewrite literalValue_decimal.
Qed.

Lemma uintDigits_digits : forall u, forallb isDigit (uintDigits u) = true.
Proof. induction u; simpl; auto. Qed.

Lemma decimalDigits_digits : forall n,
  forallb isDigit (decimalDigits n) = true /\ decimalDigits n <> [].
Proof.
  intro n. unfold decimalDigits.
  pose proof (uintDigits_digits (N.to_uint n)) as H.
  destruct (uintDigits (N.to_uint n)); [split; [reflexivity | discriminate] |].
  split; [exact H | discriminate].
Qed.

Lemma groupFromRight_chars : forall ds n,
  forallb isDigit ds = true ->
  forallb (fun c => isDigit c || N.eqb c c_dot) (groupFromRight ds n) = true.
Proof.
  induction ds as [|d ds IH]; intros n H; [reflexivity |].
  simpl in H. apply andb_true_iff in H. destruct H as [Hd Hds].
  cbn [groupFromRight]. destruct ds as [|d' ds'].
  - simpl. now rewrite Hd.
  - destruct (n =? 2).
    + cbn [forallb]. rewrite Hd, (IH 0 Hds). reflexivity.
    + cbn [forallb]. rewrite Hd, (IH (S n) Hds). reflexivity.
Qed.

Lemma groupFromRight_nonempty : forall ds n, ds <> [] -> groupFromRight ds n <> [].
Proof.
  intros [|d [|d' ds]] n H; [contradiction | discriminate |].
  cbn [groupFromRight]. destruct (n =? 2); discriminate.
Qed.

Lemma forallb_rev : forall (A : Type) (f : A -> bool) l,
  forallb f l = true -> forallb f (rev l) = true.
Proof.
  intros A f l H. rewrite forallb_forall in *. intros x Hx. apply H. now apply in_rev.
Qed.

Lemma groupInteger_chars : forall ds,
  forallb isDigit ds = true -> ds <> [] ->
  forallb (fun c => isDigit c || N.eqb c c_dot) (groupInteger ds) = true
  /\ groupInteger ds <> [].
Proof.
  intros ds Hds Hne. unfold groupInteger. destruct (5 <=? length ds).
  - split.
    + apply forallb_rev, groupFromRight_chars, forallb_rev, Hds.
    + intro H. apply (f_equal (@rev N)) in H. rewrite rev_involutive in H.
      simpl in H. revert H. apply groupFromRight_nonempty.
      intro H. apply Hne. apply (f_equal (@rev N)) in H.
      now rewrite rev_involutive in H.
  - split; [| assumption].
    rewrite forallb_forall in *. intros x Hx. now rewrite (Hds x Hx).
Qed.

Lemma twoDigits_digits : forall n, (n < 100)%N ->
  exists d1 d2, twoDigits n = [d1; d2] /\ isDigit d1 = true /\ isDigit d2 = true.
Proof.
  intros n Hn. unfold twoDigits. eexists _, _. split; [reflexivity |].
  rewrite !isDigit_range.
  assert (Hr : (n mod 10 < 10)%N) by (apply N.mod_lt; discriminate).
  assert (Hq : (n / 10 < 10)%N) by (apply N.Div0.div_lt_upper_bound; lia).
  revert Hr Hq. generalize (n mod 10)%N (n / 10)%N. intros r q Hr Hq.
  lia.
Qed.

(** Every formatted decimal has exactly two decimals. *)
Lemma formatDecimal_shape : forall v, isEuroAmount (formatDecimal v).
Proof.
  intro v. unfold formatDecimal, isEuroAmount.
  set (cents := roundToCents v).
  destruct (decimalDigits_digits (cents / 100)) as [Hds Hne].
  destruct (groupInteger_chars Hds Hne) as [Hg Hgne].
  destruct (twoDigits_digits (n := (cents mod 100)%N)) as [d1 [d2 [-> [H1 H2]]]].
  { apply N.mod_lt. lia. }
  exists (groupInteger (decimalDigits (cents / 100))), d1, d2.
  repeat split; assumption.
Qed.

(** Every Number but Infinity is printed with exactly two decimals. *)
Lemma formatCurrency_shape : forall v,
  match v with
  | Finite _ _ => isEuroAmount (formatCurrency v)
  | Infinity => formatCurrency v = [c_infinity; c_nbsp; c_euro]
  end.
Proof.
  intros [[|p] e|]; cbn [formatCurrency]; try apply formatDecimal_shape. reflexivity.
Qed.

Lemma isEuroAmount_nonempty : forall amount,
  isEuroAmount amount \/ amount = [c_infinity; c_nbsp; c_euro] -> amount <> [].
Proof.
  intros amount [[ip [d1 [d2 [-> _]]]] | ->]; [destruct ip |]; discriminate.
Qed.

Lemma normalizeAndFormatAmount_shape : forall raw amount,
  normalizeAndFormatAmount raw = Some amount ->
  isEuroAmount amount \/ amount = [c_infinity; c_nbsp; c_euro].
Proof.
  intros raw amount H. rewrite normalizeAndFormatAmount_eq in H.
  destruct (parseFloat _) as [v|]; [| discriminate]. injection H as <-.
  pose proof (formatCurrency_shape v) as Hv. destruct v; auto.
Qed.

Lemma digitsValue_snoc : forall ds d,
  digitsValue (ds ++ [d]) = (10 * digitsValue ds + (d - 48))%N.
Proof. intros ds d. unfold digitsValue. now rewrite fold_left_app. Qed.

(** A decimal with two decimals is printed with those two decimals. *)
Lemma formatDecimal_two_decimals : forall ip d1 d2,
  isDigit d1 = true -> isDigit d2 = true ->
  formatDecimal {| mantissa := digitsValue (ip ++ [d1; d2]); scale := 2 |}
  = groupInteger (decimalDigits (digitsValue ip)) ++ [c_comma; d1; d2; c_nbsp; c_euro].
Proof.
  intros ip d1 d2 H1 H2. apply isDigit_range in H1, H2.
  assert (Hv : digitsValue (ip ++ [d1; d2])
               = (10 * (10 * digitsValue ip + (d1 - 48)) + (d2 - 48))%N).
  { change (ip ++ [d1; d2]) with (ip ++ [d1] ++ [d2]).
    now rewrite (app_assoc ip [d1] [d2]), !digitsValue_snoc. }
  unfold formatDecimal, roundToCents. cbn [scale mantissa Nat.leb Nat.sub N.of_nat].
  rewrite Hv. set (V := digitsValue ip). rewrite N.pow_0_r, N.mul_1_r.
  assert (Hq : ((10 * (10 * V + (d1 - 48)) + (d2 - 48)) / 100 = V)%N).
  { symmetry. apply N.div_unique with (r := (10 * (d1 - 48) + (d2 - 48))%N); lia. }
  assert (Hr : ((10 * (10 * V + (d1 - 48)) + (d2 - 48)) mod 100
                = 10 * (d1 - 48) + (d2 - 48))%N).
  { symmetry. apply N.mod_unique with (q := V); lia. }
  rewrite Hq, Hr. unfold twoDigits.
  assert (Ha : (48 + (10 * (d1 - 48) + (d2 - 48)) / 10 = d1)%N).
  { assert ((10 * (d1 - 48) + (d2 - 48)) / 10 = d1 - 48)%N.
    { symmetry. apply N.div_unique with (r := (d2 - 48)%N); lia. }
    lia. }
  assert (Hb : (48 + (10 * (d1 - 48) + (d2 - 48)) mod 10 = d2)%N).
  { assert ((10 * (d1 - 48) + (d2 - 48)) mod 10 = d2 - 48)%N.
    { symmetry. apply N.mod_unique with (q := (d1 - 48)%N); lia. }
    lia. }
  rewrite Ha, Hb. reflexivity.
Qed.

(* ================================================================== *)
(** * Binary64: what is printed for a short literal *)
(* ================================================================== *)

Open Scope Z_scope.

Lemma mulPow2_neg : forall x e, e <= 0 -> mulPow2 x e = x.
Proof. intros x e H. unfold mulPow2. rewrite Z.max_r by lia. simpl. lia. Qed.

Lemma mulPow2_pos : forall x e, 0 <= e -> mulPow2 x e = x * 2 ^ e.
Proof. intros x e H. unfold mulPow2. now rewrite Z.max_l by lia. Qed.

Lemma pow2_shift : forall e, e <= 0 ->
  2 ^ (2 - e) = 4 * 2 ^ (- e) /\ 2 ^ (1 - e) = 2 * 2 ^ (- e) /\ 0 < 2 ^ (- e).
Proof.
  intros e H. repeat split.
  - replace (2 - e) with (2 + - e) by lia. rewrite Z.pow_add_r by lia. reflexivity.
  - replace (1 - e) with (1 + - e) by lia. rewrite Z.pow_add_r by lia. reflexivity.
  - apply Z.pow_pos_nonneg; lia.
Qed.

(** The rounded quotient is within one half of the quotient. *)
Lemma roundQuotient_spec : forall a b e,
  0 <= a -> 0 < b -> e <= 0 ->
  let m := roundQuotient a b e in
  0 <= m /\ 2 * (m * b) - b <= 2 * (a * 2 ^ (- e)) <= 2 * (m * b) + b.
Proof.
  intros a b e Ha Hb He. unfold roundQuotient.
  rewrite (mulPow2_neg b He), (mulPow2_pos a) by lia.
  destruct (pow2_shift He) as [_ [_ Hpos]].
  set (num := a * 2 ^ (- e)).
  assert (Hnum : 0 <= num) by (unfold num; nia).
  pose proof (Z.div_mod num b ltac:(lia)) as Hdm.
  pose proof (Z.mod_pos_bound num b Hb) as Hr.
  assert (Hq : 0 <= num / b) by (apply Z.div_pos; lia).
  revert Hdm Hr Hq. generalize (num / b) (num mod b). intros q r Hdm Hr Hq.
  cbv zeta.
  destruct (Z.ltb_spec (2 * r) b); [split; nia |].
  destruct (Z.ltb_spec b (2 * r)); [split; nia |].
  destruct (Z.even q); split; nia.
Qed.

(** The Number nearest to a small positive quotient: it is finite, and the
    quotient is within half a unit in its last place. *)
Lemma nearestBinary64_small : forall d,
  let a := Z.of_N (mantissa d) in
  let b := 10 ^ Z.of_nat (scale d) in
  0 < a -> Z.log2 a - Z.log2 b <= 43 ->
  exists m e,
    nearestBinary64 d = Finite (Z.to_N m) e
    /\ 0 <= m /\ e <= -8 /\ withinHalfUlp m e a b.
Proof.
  intros d a b Ha Hlog. unfold nearestBinary64. fold a b.
  destruct (Z.eqb_spec a 0) as [H0 | _]; [lia |].
  assert (Hb : 0 < b) by (apply Z.pow_pos_nonneg; lia).
  set (e := Z.max (-1074) (floorLog2Ratio a b - 52)).
  assert (He : e <= -9).
  { unfold e, floorLog2Ratio. cbv zeta.
    destruct (mulPow2 b _ <=? mulPow2 a _); lia. }
  destruct (roundQuotient_spec (a := a) (b := b) (e := e)) as [Hm Hnear]; try lia.
  destruct (pow2_shift (e := e)) as [H4 [H2 Hpos]]; [lia |].
  set (m := roundQuotient a b e) in *.
  destruct (Z.eqb_spec m (2 ^ 53)) as [Hcarry | _].
  - destruct (Z.ltb_spec 971 (e + 1)); [lia |].
    exists (2 ^ 52), (e + 1). split; [reflexivity |].
    split; [lia |]. split; [lia |].
    unfold withinHalfUlp. replace (2 - (e + 1)) with (1 - e) by lia.
    rewrite H2. rewrite Hcarry in Hnear.
    change (2 ^ 53) with (2 * 2 ^ 52) in Hnear. lia.
  - destruct (Z.ltb_spec 971 e); [lia |].
    exists m, e. split; [reflexivity |].
    split; [lia |]. split; [lia |].
    unfold withinHalfUlp. rewrite H4. lia.
Qed.

Lemma mulPow10_neg : forall x k, k <= 0 -> mulPow10 x k = x.
Proof. intros x k H. unfold mulPow10. rewrite Z.max_r by lia. simpl. lia. Qed.

Lemma mulPow10_pos : forall x k, 0 <= k -> mulPow10 x k = x * 10 ^ k.
Proof. intros x k H. unfold mulPow10. now rewrite Z.max_l by lia. Qed.

(** What [inRoundingInterval] accepts is within half a unit in the last
    place. *)
Lemma inRoundingInterval_near : forall m e c k,
  e < 0 -> inRoundingInterval m e c k = true ->
  (4 * m - 2) * 10 ^ Z.max (- k) 0
  <= c * 2 ^ (2 - e) * 10 ^ Z.max k 0
  <= (4 * m + 2) * 10 ^ Z.max (- k) 0.
Proof.
  intros m e c k He H. unfold inRoundingInterval in H. cbv zeta in H.
  rewrite !(mulPow2_neg _ (e := e - 2)) in H by lia.
  rewrite (mulPow2_pos c (e := - (e - 2))) in H by lia.
  replace (- (e - 2)) with (2 - e) in H by lia.
  unfold mulPow10 in H.
  assert (HP : 0 < 10 ^ Z.max (- k) 0) by (apply Z.pow_pos_nonneg; lia).
  revert H HP. generalize (10 ^ Z.max (- k) 0) (c * 2 ^ (2 - e) * 10 ^ Z.max k 0).
  intros P C H HP.
  destruct ((m =? 2 ^ 52) && (-1074 <? e)); destruct (Z.even m);
    apply andb_true_iff in H; destruct H as [H1 H2];
    rewrite ?Z.leb_le, ?Z.ltb_lt in H1, H2; nia.
Qed.

Lemma exactDecimal_near : forall m e,
  e < 0 ->
  exactDecimal m e = decimalOf (m * 5 ^ (- e)) e
  /\ (4 * m - 2) * 10 ^ Z.max (- e) 0
     <= (m * 5 ^ (- e)) * 2 ^ (2 - e) * 10 ^ Z.max e 0
     <= (4 * m + 2) * 10 ^ Z.max (- e) 0.
Proof.
  intros m e He. unfold exactDecimal.
  destruct (Z.leb_spec 0 e); [lia |]. split; [reflexivity |].
  rewrite Z.max_l, Z.max_r by lia.
  destruct (pow2_shift (e := e)) as [H4 [_ Hpos]]; [lia |].
  rewrite H4. change 10 with (2 * 5). rewrite Z.pow_mul_l.
  assert (H5 : 0 < 5 ^ (- e)) by (apply Z.pow_pos_nonneg; lia).
  change ((2 * 5) ^ 0) with 1. nia.
Qed.

(** The shortest decimal is one that [inRoundingInterval] accepts, or the
    value itself. *)
Lemma shortestFrom_sound : forall fuel m e k,
  (exists c k', shortestFrom fuel m e k = decimalOf c k'
                /\ inRoundingInterval m e c k' = true)
  \/ shortestFrom fuel m e k = exactDecimal m e.
Proof.
  induction fuel as [|fuel IH]; intros m e k; cbn [shortestFrom]; cbv zeta;
    set (c := mulPow10 (mulPow2 m e) (- k) / mulPow10 (mulPow2 1 (- e)) k);
    set (r := mulPow10 (mulPow2 m e) (- k) mod mulPow10 (mulPow2 1 (- e)) k);
    set (den := mulPow10 (mulPow2 1 (- e)) k);
    destruct (inRoundingInterval m e c k) eqn:Hb;
    destruct (inRoundingInterval m e (c + 1) k) eqn:Ha; cbn [andb];
    try (destruct (2 * r <? den); [left; eauto |];
         destruct (den <? 2 * r); [left; eauto |];
         destruct (Z.even c); left; eauto);
    try (left; eauto; fail).
  - now right.
  - apply IH.
Qed.

Lemma shortestDecimal_near : forall m e,
  e < 0 ->
  exists c k,
    shortestDecimal m e = decimalOf c k
    /\ (4 * m - 2) * 10 ^ Z.max (- k) 0
       <= c * 2 ^ (2 - e) * 10 ^ Z.max k 0
       <= (4 * m + 2) * 10 ^ Z.max (- k) 0.
Proof.
  intros m e He. unfold shortestDecimal. cbv zeta.
  match goal with |- context [shortestFrom ?f m e ?k] =>
    destruct (shortestFrom_sound f m e k) as [[c [k' [-> Hin]]] | ->] end.
  - exists c, k'. split; [reflexivity |]. now apply inRoundingInterval_near.
  - destruct (exactDecimal_near m He) as [-> Hnear]. eauto.
Qed.

Lemma roundHalfUp_near : forall c p C : N,
  (0 < p)%N -> (2 * c < 2 * (C * p) + p)%N -> (2 * (C * p) <= 2 * c + p)%N ->
  (if (p <=? 2 * (c mod p))%N then (c / p + 1)%N else (c / p)%N) = C.
Proof.
  intros c p C Hp Hlt Hle.
  pose proof (N.div_mod c p ltac:(lia)) as Hdm.
  pose proof (N.mod_lt c p ltac:(lia)) as Hr.
  revert Hdm Hr. generalize (c / p)%N (c mod p)%N. intros q r Hdm Hr.
  destruct (N.leb_spec p (2 * r)); nia.
Qed.

(** A decimal within half a unit in the last place of a Number below
    [2^45], like a whole number of hundredths within the same distance of
    it, rounds to that number of hundredths. *)
Lemma roundToCents_near : forall m e c k C,
  0 < m -> e <= -8 -> 0 <= C ->
  (4 * m - 2) * 100 <= C * 2 ^ (2 - e) <= (4 * m + 2) * 100 ->
  (4 * m - 2) * 10 ^ Z.max (- k) 0
    <= c * 2 ^ (2 - e) * 10 ^ Z.max k 0
    <= (4 * m + 2) * 10 ^ Z.max (- k) 0 ->
  roundToCents (decimalOf c k) = Z.to_N C.
Proof.
  intros m e c k C Hm He HC HnearC Hnear.
  assert (HF : 1024 <= 2 ^ (2 - e)).
  { change 1024 with (2 ^ 10). apply Z.pow_le_mono_r; lia. }
  set (F := 2 ^ (2 - e)) in *.
  assert (HP : 0 < 10 ^ Z.max (- k) 0) by (apply Z.pow_pos_nonneg; lia).
  assert (HQ : 0 < 10 ^ Z.max k 0) by (apply Z.pow_pos_nonneg; lia).
  set (P := 10 ^ Z.max (- k) 0) in *.
  set (Q := 10 ^ Z.max k 0) in *.
  assert (Hc : 0 < c * Q) by nia.
  assert (Hclose : 2 * (100 * (c * Q)) < 2 * (C * P) + P
                   /\ 2 * (C * P) < 2 * (100 * (c * Q)) + P).
  { assert (H1 : (4 * m - 2) * 100 * P <= C * F * P <= (4 * m + 2) * 100 * P) by nia.
    assert (H2 : (4 * m - 2) * 100 * P <= 100 * (c * F * Q) <= (4 * m + 2) * 100 * P)
      by nia.
    assert (H3 : F * (100 * (c * Q) - C * P) <= 400 * P) by nia.
    assert (H4 : F * (C * P - 100 * (c * Q)) <= 400 * P) by nia.
    split; nia. }
  unfold decimalOf, roundToCents. cbn [scale mantissa]. unfold mulPow10. fold Q.
  destruct (Z.le_gt_cases 0 k) as [Hk | Hk].
  - assert (HPv : P = 1) by (unfold P; rewrite Z.max_r by lia; reflexivity).
    replace (Z.to_nat (- k)) with 0%nat by lia. cbn [Nat.leb Nat.sub N.of_nat].
    change (10 ^ 2)%N with 100%N. lia.
  - assert (HQv : Q = 1) by (unfold Q; rewrite Z.max_r by lia; reflexivity).
    rewrite HQv, Z.mul_1_r in *.
    destruct (Z.le_gt_cases (-2) k) as [Hk2 | Hk2].
    + assert (Hcases : k = -1 \/ k = -2) by lia.
      destruct Hcases as [-> | ->].
      * change (Z.to_nat (- (-1))) with 1%nat. cbn [Nat.leb Nat.sub N.of_nat].
        change (10 ^ N.pos 1)%N with 10%N.
        change P with 10 in Hclose. lia.
      * change (Z.to_nat (- (-2))) with 2%nat. cbn [Nat.leb Nat.sub N.of_nat].
        change (10 ^ 0)%N with 1%N.
        change P with 100 in Hclose. lia.
    + destruct (Nat.leb_spec (Z.to_nat (- k)) 2) as [Hs | Hs]; [lia |].
      set (p := (10 ^ N.of_nat (Z.to_nat (- k) - 2))%N).
      assert (Hp : Z.of_N p = 10 ^ (- k - 2)).
      { unfold p. rewrite N2Z.inj_pow, nat_N_Z, Nat2Z.inj_sub by lia.
        rewrite Z2Nat.id by lia. reflexivity. }
      assert (HPp : P = 100 * Z.of_N p).
      { unfold P. rewrite Z.max_l, Hp by lia.
        replace (- k) with (2 + (- k - 2)) at 1 by lia.
        rewrite Z.pow_add_r by lia. reflexivity. }
      assert (Hp0 : 0 < Z.of_N p) by (rewrite Hp; apply Z.pow_pos_nonneg; lia).
      apply roundHalfUp_near; [lia | |].
      * assert (Hz : 2 * c < 2 * (C * Z.of_N p) + Z.of_N p) by nia. nia.
      * assert (Hz : 2 * (C * Z.of_N p) <= 2 * c + Z.of_N p) by nia. nia.
Qed.

Lemma formatDecimal_cents : forall d1 d2,
  roundToCents d1 = roundToCents d2 -> formatDecimal d1 = formatDecimal d2.
Proof. intros d1 d2 H. unfold formatDecimal. now rewrite H. Qed.

(** A Number read from a literal of at most two decimals and below
    [10^13] is printed as the literal: binary64 keeps its hundredths. *)
Lemma formatCurrency_nearest : forall d,
  (scale d <= 2)%nat -> (roundToCents d < 10 ^ 15)%N ->
  formatCurrency (nearestBinary64 d) = formatDecimal d.
Proof.
  intros d Hs Hlt.
  assert (Hcents : roundToCents d = (mantissa d * 10 ^ N.of_nat (2 - scale d))%N).
  { unfold roundToCents. destruct (Nat.leb_spec (scale d) 2); [reflexivity | lia]. }
  change (10 ^ 15)%N with 1000000000000000%N in Hlt.
  destruct (N.eq_dec (mantissa d) 0) as [H0 | Hpos].
  - unfold nearestBinary64. rewrite H0. cbn [Z.of_N Z.eqb formatCurrency].
    apply formatDecimal_cents. rewrite Hcents, H0. reflexivity.
  - set (a := Z.of_N (mantissa d)). set (b := 10 ^ Z.of_nat (scale d)).
    assert (Ha : 0 < a) by (unfold a; lia).
    assert (Hb : (b = 1 /\ roundToCents d = (mantissa d * 100)%N)
                 \/ (b = 10 /\ roundToCents d = (mantissa d * 10)%N)
                 \/ (b = 100 /\ roundToCents d = (mantissa d * 1)%N)).
    { assert (Hthree : scale d = 0%nat \/ scale d = 1%nat \/ scale d = 2%nat) by lia.
      unfold b. destruct Hthree as [H | [H | H]]; rewrite H in *.
      - left. split; [reflexivity | exact Hcents].
      - right. left. split; [reflexivity | exact Hcents].
      - right. right. split; [reflexivity | exact Hcents]. }
    assert (Hlog : Z.log2 a - Z.log2 b <= 43).
    { destruct Hb as [[Hb Hc] | [[Hb Hc] | [Hb Hc]]]; rewrite Hb; rewrite Hc in Hlt.
      - change (Z.log2 1) with 0.
        assert (Z.log2 a < 44); [| lia].
        apply Z.log2_lt_pow2; [assumption |]. unfold a.
        change (2 ^ 44) with 17592186044416. lia.
      - change (Z.log2 10) with 3.
        assert (Z.log2 a < 47); [| lia].
        apply Z.log2_lt_pow2; [assumption |]. unfold a.
        change (2 ^ 47) with 140737488355328. lia.
      - change (Z.log2 100) with 6.
        assert (Z.log2 a < 50); [| lia].
        apply Z.log2_lt_pow2; [assumption |]. unfold a.
        change (2 ^ 50) with 1125899906842624. lia. }
    destruct (nearestBinary64_small d Ha Hlog) as [m [e [Hn [Hm [He Hv]]]]].
    fold a b in Hv. unfold withinHalfUlp in Hv.
    assert (HF : 1024 <= 2 ^ (2 - e)).
    { change 1024 with (2 ^ 10). apply Z.pow_le_mono_r; lia. }
    assert (Hm0 : 0 < m).
    { destruct Hb as [[Hb _] | [[Hb _] | [Hb _]]]; rewrite Hb in Hv; nia. }
    rewrite Hn. unfold formatCurrency.
    destruct (Z.to_N m) as [|p] eqn:Hp; [lia |].
    rewrite <- Hp, Z2N.id by lia.
    destruct (shortestDecimal_near m (e := e)) as [c [k [-> Hnear]]]; [lia |].
    apply formatDecimal_cents.
    rewrite (@roundToCents_near m e c k (Z.of_N (roundToCents d)));
      [apply N2Z.id | lia | lia | lia | | exact Hnear].
    destruct Hb as [[Hb Hc] | [[Hb Hc] | [Hb Hc]]]; rewrite Hb in Hv; rewrite Hc;
      rewrite N2Z.inj_mul; fold a; simpl Z.of_N; lia.
Qed.

Close Scope Z_scope.

Lemma digitsValue_lt : forall ds,
  forallb isDigit ds = true -> (digitsValue ds < 10 ^ N.of_nat (length ds))%N.
Proof.
  induction ds as [|d ds IH] using rev_ind; intro H; [reflexivity |].
  rewrite forallb_app in H. apply andb_true_iff in H. destruct H as [Hds Hd].
  simpl in Hd. rewrite andb_true_r in Hd. apply isDigit_range in Hd.
  specialize (IH Hds).
  rewrite digitsValue_snoc, length_app. cbn [length].
  replace (N.of_nat (length ds + 1)) with (N.succ (N.of_nat (length ds))) by lia.
  rewrite N.pow_succ_r'. lia.
Qed.

(** A Number read from digits, a dot and two digits, fifteen digits at
    most, is printed with those digits. *)
Lemma formatCurrency_two_decimals : forall ip d1 d2,
  forallb isDigit ip = true -> isDigit d1 = true -> isDigit d2 = true ->
  length ip <= 13 ->
  formatCurrency
    (nearestBinary64 {| mantissa := digitsValue (ip ++ [d1; d2]); scale := 2 |})
  = groupInteger (decimalDigits (digitsValue ip)) ++ [c_comma; d1; d2; c_nbsp; c_euro].
Proof.
  intros ip d1 d2 Hip H1 H2 Hlen.
  rewrite formatCurrency_nearest.
  - now apply formatDecimal_two_decimals.
  - simpl. lia.
  - unfold roundToCents. cbn [scale mantissa Nat.leb Nat.sub N.of_nat].
    rewrite N.pow_0_r, N.mul_1_r.
    eapply N.lt_le_trans.
    + apply digitsValue_lt. rewrite forallb_app, Hip. simpl. now rewrite H1, H2.
    + apply N.pow_le_mono_r; [discriminate |]. rewrite length_app. simpl. lia.
Qed.

(** A literal of at most 300 digits is read as a finite Number. *)
Lemma nearestBinary64_finite : forall d,
  (mantissa d < 10 ^ 300)%N -> exists m e, nearestBinary64 d = Finite m e.
Proof.
  intros d Hd. unfold nearestBinary64.
  set (a := Z.of_N (mantissa d)). set (b := (10 ^ Z.of_nat (scale d))%Z).
  destruct (Z.eqb_spec a 0) as [_ | Ha]; [eauto |].
  assert (Hpow : (10 ^ 300 < 2 ^ 997)%Z) by (vm_compute; reflexivity).
  assert (Hlt : (a < 2 ^ 997)%Z).
  { eapply Z.lt_trans; [| exact Hpow]. unfold a.
    apply N2Z.inj_lt in Hd. rewrite N2Z.inj_pow in Hd. exact Hd. }
  assert (Hlog : (Z.log2 a < 997)%Z) by (apply Z.log2_lt_pow2; [unfold a in *; lia | exact Hlt]).
  pose proof (Z.log2_nonneg b) as Hb.
  set (e := Z.max (-1074) (floorLog2Ratio a b - 52)).
  assert (He : (e <= 944)%Z).
  { unfold e, floorLog2Ratio. cbv zeta.
    destruct (mulPow2 b _ <=? mulPow2 a _)%Z; lia. }
  destruct (roundQuotient a b e =? 2 ^ 53)%Z.
  - destruct (Z.ltb_spec 971 (e + 1)); [lia | eauto].
  - destruct (Z.ltb_spec 971 e); [lia | eauto].
Qed.

Lemma trimStart_length : forall s, length (trimStart s) <= length s.
Proof.
  induction s as [|c s IH]; simpl; [lia |]. destruct (isWhiteSpace c); simpl; lia.
Qed.

Lemma literalValue_bound : forall s d,
  literalValue s = Some d -> (mantissa d < 10 ^ N.of_nat (length s))%N.
Proof.
  intros s d H. unfold literalValue in H.
  pose proof (trimStart_length s) as Hlen.
  pose proof (takeDigits_spec (trimStart s)) as Hspec.
  destruct (takeDigits (trimStart s)) as [ip rest]. destruct Hspec as [Heq [Hip _]].
  rewrite Heq, length_app in Hlen.
  assert (Hwhole : forall d', match ip with
                              | [] => None
                              | _ :: _ => Some {| mantissa := digitsValue ip; scale := 0 |}
                              end = Some d' ->
                   (mantissa d' < 10 ^ N.of_nat (length s))%N).
  { intros d' Hd'. destruct ip as [|i ip']; [discriminate |]. injection Hd' as <-.
    cbn [mantissa]. eapply N.lt_le_trans; [apply digitsValue_lt, Hip |].
    apply N.pow_le_mono_r; [discriminate | lia]. }
  destruct rest as [|c rest']; [now apply Hwhole |].
  destruct (N.eqb c c_dot); [| now apply Hwhole].
  pose proof (takeDigits_spec rest') as Hspec'.
  destruct (takeDigits rest') as [fp rest'']. destruct Hspec' as [Heq' [Hfp _]].
  rewrite Heq' in Hlen. cbn [length] in Hlen. rewrite length_app in Hlen.
  assert (Hd : d = {| mantissa := digitsValue (ip ++ fp); scale := length fp |}).
  { destruct ip; destruct fp; try discriminate; now injection H as <-. }
  rewrite Hd. cbn [mantissa].
  eapply N.lt_le_trans.
  - apply digitsValue_lt. now rewrite forallb_app, Hip, Hfp.
  - apply N.pow_le_mono_r; [discriminate |]. rewrite length_app. lia.
Qed.

Lemma replaceFirst_length : forall c d s, length (replaceFirst c d s) = length s.
Proof.
  intros c d. induction s as [|x s IH]; [reflexivity |].
  simpl. destruct (N.eqb x c); simpl; [reflexivity | now rewrite IH].
Qed.

Lemma removeAll_length : forall c s, length (removeAll c s) <= length s.
Proof.
  intros c. unfold removeAll. induction s as [|x s IH]; simpl; [lia |].
  destruct (negb (N.eqb x c)); simpl; lia.
Qed.

Lemma europeanCleanup_length : forall clean,
  length (europeanCleanup clean) <= length clean.
Proof.
  intro clean. unfold europeanCleanup.
  destruct (includesChar clean c_dot && includesChar clean c_comma).
  - rewrite replaceFirst_length. apply removeAll_length.
  - destruct (includesChar clean c_comma); [rewrite replaceFirst_length |]; lia.
Qed.

(* ================================================================== *)
(** * Normalization of a token *)
(* ================================================================== *)

Lemma indexOf_after_digits : forall ip after,
  forallb isDigit ip = true ->
  indexOf (ip ++ c_dot :: after) c_dot = Z.of_nat (length ip).
Proof.
  induction ip as [|i ip IH]; intros after Hip.
  - reflexivity.
  - simpl in Hip. apply andb_true_iff in Hip. destruct Hip as [Hi Hip].
    cbn [app indexOf].
    destruct (N.eqb_spec i c_dot) as [-> | _]; [discriminate |].
    rewrite (IH after Hip).
    destruct (Z.ltb_spec (Z.of_nat (length ip)) 0); cbn [length]; lia.
Qed.

Lemma normalizeAndFormatAmount_token : forall tok,
  isToken tok = true ->
  normalizeAndFormatAmount tok
  = option_map formatCurrency (parseFloat (europeanCleanup tok)).
Proof.
  intros tok H. rewrite normalizeAndFormatAmount_eq, trim_token; [reflexivity |].
  destruct tok; [discriminate | exact H].
Qed.

(** The amount of a token of at most 300 characters has exactly two
    decimals. *)
Lemma normalizeAndFormatAmount_finite : forall tok amount,
  isToken tok = true -> length tok <= 300 ->
  normalizeAndFormatAmount tok = Some amount -> isEuroAmount amount.
Proof.
  intros tok amount Htok Hlen H.
  rewrite (normalizeAndFormatAmount_token tok Htok) in H. unfold parseFloat in H.
  destruct (literalValue (europeanCleanup tok)) as [d|] eqn:Hd; [| discriminate].
  simpl in H. injection H as <-.
  apply literalValue_bound in Hd.
  pose proof (europeanCleanup_length tok) as Hc.
  destruct (nearestBinary64_finite d) as [m [e ->]].
  - eapply N.lt_le_trans; [exact Hd |].
    apply N.pow_le_mono_r; [discriminate | lia].
  - apply (formatCurrency_shape (Finite m e)).
Qed.

(** C10. For every numeric token with at least one dot, no comma, and
    whose first dot is not three characters from the end, no separator is
    removed: the token goes to [parseFloat] as it is, which reads the first
    dot as the decimal point and stops at the next character that is not a
    digit; the Number is the binary64 value nearest to the literal read.
    "1.234" is the value 1.234, printed "1,23 €" and not "1.234,00 €";
    "1.300.50" is the value 1.300, printed "1,30 €"; and
    "1.0049999999999999", which binary64 does not tell from 1.005, is
    printed "1,01 €". *)
Theorem dots_only_token_parsed_as_is : forall tok : jsstring,
  isToken tok = true ->
  includesChar tok c_dot = true ->
  includesChar tok c_comma = false ->
  indexOf tok c_dot <> (Z.of_nat (length tok) - 3)%Z ->
  plainFormAmount (trim tok) = None
  /\ europeanCleanup (trim tok) = tok
  /\ normalizeAndFormatAmount tok = option_map formatCurrency (parseFloat tok)
  /\ (forall ip after,
        tok = ip ++ c_dot :: after -> forallb isDigit ip = true ->
        ip ++ fst (takeDigits after) <> [] ->
        parseFloat tok
        = Some (nearestBinary64
                  {| mantissa := digitsValue (ip ++ fst (takeDigits after));
                     scale := length (fst (takeDigits after)) |}))
  /\ normalizeAndFormatAmount (str "1.234") = Some (str "1,23" ++ [c_nbsp; c_euro])
  /\ normalizeAndFormatAmount (str "1.234") <> Some (str "1.234,00" ++ [c_nbsp; c_euro])
  /\ normalizeAndFormatAmount (str "1.300.50") = Some (str "1,30" ++ [c_nbsp; c_euro])
  /\ parseFloat (str "1.0049999999999999") = parseFloat (str "1.005")
  /\ normalizeAndFormatAmount (str "1.0049999999999999")
     = Some (str "1,01" ++ [c_nbsp; c_euro]).
Proof.
  intros tok Htok Hdot Hcomma Hfirst.
  assert (Htrim : trim tok = tok).
  { apply trim_token. destruct tok; [discriminate | exact Htok]. }
  assert (Hclean : europeanCleanup tok = tok).
  { unfold europeanCleanup. rewrite Hcomma, andb_false_r. reflexivity. }
  split.
  { rewrite Htrim. unfold plainFormAmount. rewrite Hdot, Hcomma. simpl.
    apply Z.eqb_neq in Hfirst. now rewrite Hfirst. }
  split; [now rewrite Htrim |].
  split; [now rewrite normalizeAndFormatAmount_token, Hclean |].
  split.
  - intros ip after -> Hip Hne.
    pose proof (takeDigits_spec after) as Hspec.
    destruct (takeDigits after) as [fp rest]. destruct Hspec as [-> [Hfp Hrest]].
    simpl in *. now apply parseFloat_decimal.
  - split; [vm_compute; reflexivity |].
    split; [vm_compute; discriminate |].
    split; [vm_compute; reflexivity |].
    split; vm_compute; reflexivity.
Qed.

Lemma dots_only_token_parsed_as_is_witness :
  normalizeAndFormatAmount (str "1.234")
  = option_map formatCurrency (parseFloat (str "1.234"))
  /\ parseFloat (str "1.234")
     = Some (nearestBinary64 {| mantissa := 1234; scale := 3 |}).
Proof.
  assert (H1 : isToken (str "1.234") = true) by reflexivity.
  assert (H2 : includesChar (str "1.234") c_dot = true) by reflexivity.
  assert (H3 : includesChar (str "1.234") c_comma = false) by reflexivity.
  assert (H4 : indexOf (str "1.234") c_dot <> (Z.of_nat (length (str "1.234")) - 3)%Z)
    by (vm_compute; discriminate).
  destruct (dots_only_token_parsed_as_is (str "1.234") H1 H2 H3 H4)
    as [_ [_ [Hb [Hc _]]]].
  split; [exact Hb |].
  apply (Hc (str "1") (str "234")); [reflexivity | reflexivity | vm_compute; discriminate].
Defined.

(** C1, as amended. For every numeric token: when it is digits, one dot
    and exactly two digits, that dot is the decimal separator and the two
    digits are the decimals printed; when it holds both dots and commas,
    every dot is removed and the first comma becomes the decimal point; when
    it holds commas and no dot, the first comma becomes the decimal point.
    What results is parsed as a number, the binary64 value nearest to the
    literal read, and, when it parses, printed in the Spanish euro
    convention with exactly two decimals, unless the token is so long
    (more than 300 characters) that the number is Infinity. For tokens of
    at most fifteen digits binary64 keeps the two decimals written:
    "600000.00" is printed "600.000,00 €", "100.000,00" is the value
    100000.00 and "1500,50" the value 1500.50. *)
Theorem amount_normalization_cases : forall tok : jsstring,
  isToken tok = true ->
  (forall ip d1 d2,
     tok = ip ++ [c_dot; d1; d2] ->
     forallb isDigit ip = true -> isDigit d1 = true -> isDigit d2 = true ->
     parseFloat tok
     = Some (nearestBinary64
               {| mantissa := digitsValue (ip ++ [d1; d2]); scale := 2 |})
     /\ plainFormAmount tok = normalizeAndFormatAmount tok
     /\ (length ip <= 13 ->
         normalizeAndFormatAmount tok
         = Some (groupInteger (decimalDigits (digitsValue ip))
                   ++ [c_comma; d1; d2; c_nbsp; c_euro])))
  /\ (includesChar tok c_dot = true -> includesChar tok c_comma = true ->
      normalizeAndFormatAmount tok
      = option_map formatCurrency
          (parseFloat (replaceFirst c_comma c_dot (removeAll c_dot tok))))
  /\ (includesChar tok c_dot = false -> includesChar tok c_comma = true ->
      normalizeAndFormatAmount tok
      = option_map formatCurrency (parseFloat (replaceFirst c_comma c_dot tok)))
  /\ (forall ip fp,
        removeAll c_dot tok = ip ++ c_comma :: fp ->
        forallb isDigit ip = true -> forallb isDigit fp = true -> ip ++ fp <> [] ->
        parseFloat (europeanCleanup tok)
        = Some (nearestBinary64
                  {| mantissa := digitsValue (ip ++ fp); scale := length fp |})
        /\ (forall d1 d2, fp = [d1; d2] -> length ip <= 13 ->
            normalizeAndFormatAmount tok
            = Some (groupInteger (decimalDigits (digitsValue ip))
                      ++ [c_comma; d1; d2; c_nbsp; c_euro])))
  /\ (forall amount, normalizeAndFormatAmount tok = Some amount ->
        isEuroAmount amount \/ amount = [c_infinity; c_nbsp; c_euro])
  /\ (length tok <= 300 ->
      forall amount, normalizeAndFormatAmount tok = Some amount -> isEuroAmount amount)
  /\ normalizeAndFormatAmount (str "600000.00")
     = Some (str "600.000,00" ++ [c_nbsp; c_euro])
  /\ literalValue (europeanCleanup (str "100.000,00"))
     = Some {| mantissa := 10000000; scale := 2 |}
  /\ normalizeAndFormatAmount (str "100.000,00")
     = Some (str "100.000,00" ++ [c_nbsp; c_euro])
  /\ literalValue (europeanCleanup (str "1500,50"))
     = Some {| mantissa := 150050; scale := 2 |}
  /\ normalizeAndFormatAmount (str "1500,50")
     = Some (str "1500,50" ++ [c_nbsp; c_euro])
  /\ normalizeAndFormatAmount (repeat 57%N 400) = Some [c_infinity; c_nbsp; c_euro].
Proof.
  intros tok Htok.
  pose proof (normalizeAndFormatAmount_token tok Htok) as Heq.
  split; [| split; [| split; [| split; [| split; [| split]]]]].
  - intros ip d1 d2 -> Hip H1 H2.
    assert (Hno : includesChar (ip ++ [c_dot; d1; d2]) c_comma = false).
    { apply includesChar_false. rewrite in_app_iff. intros [H | H].
      - rewrite forallb_forall in Hip. apply Hip in H. discriminate.
      - simpl in H. destruct H as [H | [H | [H | []]]]; try discriminate;
          subst; discriminate. }
    assert (Hclean : europeanCleanup (ip ++ [c_dot; d1; d2]) = ip ++ [c_dot; d1; d2]).
    { unfold europeanCleanup. rewrite Hno, andb_false_r. reflexivity. }
    assert (Hparse : parseFloat (ip ++ [c_dot; d1; d2])
                     = Some (nearestBinary64
                               {| mantissa := digitsValue (ip ++ [d1; d2]);
                                  scale := 2 |})).
    { apply (parseFloat_decimal ip [d1; d2] []).
      - assumption.
      - simpl. now rewrite H1, H2.
      - exact I.
      - destruct ip; discriminate. }
    assert (Hplain : plainFormAmount (ip ++ [c_dot; d1; d2])
                     = Some (formatCurrency
                               (nearestBinary64
                                  {| mantissa := digitsValue (ip ++ [d1; d2]);
                                     scale := 2 |}))).
    { unfold plainFormAmount. rewrite Hno.
      assert (Hin : includesChar (ip ++ [c_dot; d1; d2]) c_dot = true).
      { apply includesChar_In, in_or_app. right. now left. }
      rewrite Hin. cbn [andb negb].
      rewrite (indexOf_after_digits ip [d1; d2] Hip), length_app.
      cbn [length].
      replace (Z.of_nat (length ip + 3) - 3)%Z with (Z.of_nat (length ip)) by lia.
      now rewrite Z.eqb_refl, Hparse. }
    split; [exact Hparse |].
    rewrite Heq, Hclean, Hparse, Hplain. split; [reflexivity |].
    intro Hlen. cbn [option_map]. now rewrite formatCurrency_two_decimals.
  - intros Hd Hc. rewrite Heq. unfold europeanCleanup. now rewrite Hd, Hc.
  - intros Hd Hc. rewrite Heq. unfold europeanCleanup. now rewrite Hd, Hc.
  - intros ip fp Hrm Hip Hfp Hne.
    assert (Hc : includesChar tok c_comma = true).
    { apply includesChar_In.
      assert (Hin : In c_comma (removeAll c_dot tok))
        by (rewrite Hrm; apply in_or_app; right; now left).
      unfold removeAll in Hin. apply filter_In in Hin. tauto. }
    assert (Hrep : replaceFirst c_comma c_dot (ip ++ c_comma :: fp) = ip ++ c_dot :: fp).
    { clear - Hip. induction ip as [|i ip IH]; simpl.
      - reflexivity.
      - simpl in Hip. apply andb_true_iff in Hip. destruct Hip as [Hi Hip].
        destruct (N.eqb_spec i c_comma) as [-> | _]; [discriminate |].
        now rewrite IH. }
    assert (Hparse : parseFloat (europeanCleanup tok)
                     = Some (nearestBinary64
                               {| mantissa := digitsValue (ip ++ fp);
                                  scale := length fp |})).
    { unfold europeanCleanup. rewrite Hc, andb_true_r.
      destruct (includesChar tok c_dot) eqn:Hd.
      + rewrite Hrm, Hrep.
        rewrite <- (app_nil_r fp) at 1. now apply parseFloat_decimal.
      + assert (Hid : removeAll c_dot tok = tok).
        { apply includesChar_false in Hd. unfold removeAll.
          apply forallb_filter_id. apply forallb_forall. intros x Hx.
          apply negb_true_iff. apply N.eqb_neq. intros ->. contradiction. }
        rewrite <- Hid, Hrm, Hrep.
        rewrite <- (app_nil_r fp) at 1. now apply parseFloat_decimal. }
    split; [exact Hparse |].
    intros d1 d2 -> Hlen. rewrite Heq, Hparse. cbn [option_map length].
    simpl in Hfp. apply andb_true_iff in Hfp. destruct Hfp as [H1 Hfp].
    apply andb_true_iff in Hfp. destruct Hfp as [H2 _].
    now rewrite formatCurrency_two_decimals.
  - intros amount. apply normalizeAndFormatAmount_shape.
  - intros Hlen amount. now apply normalizeAndFormatAmount_finite.
  - repeat split; vm_compute; reflexivity.
Qed.

Lemma amount_normalization_cases_witness :
  normalizeAndFormatAmount (str "600000.00")
  = Some (groupInteger (decimalDigits (digitsValue (str "600000")))
            ++ [c_comma; 48%N; 48%N; c_nbsp; c_euro]).
Proof.
  assert (Htok : isToken (str "600000.00") = true) by reflexivity.
  destruct (amount_normalization_cases (str "600000.00") Htok) as [Hplain _].
  pose proof (Hplain (str "600000") 48%N 48%N eq_refl eq_refl eq_refl eq_refl)
    as Hcase.
  destruct Hcase as [_ [_ Hprinted]].
  apply Hprinted. simpl. lia.
Defined.

(** The claim C1 as it is worded fails on a token with two dots: it ends
    with exactly two digits after its final dot, and yet the decimals
    printed are those that follow the first dot. *)
Lemma final_dot_not_decimal_counterexample :
  isToken (str "1.300.50") = true
  /\ includesChar (str "1.300.50") c_dot = true
  /\ includesChar (str "1.300.50") c_comma = false
  /\ str "1.300.50" = str "1.300" ++ [c_dot] ++ str "50"
  /\ forallb isDigit (str "50") = true
  /\ literalValue (europeanCleanup (trim (str "1.300.50")))
     = Some {| mantissa := 1300; scale := 3 |}
  /\ normalizeAndFormatAmount (str "1.300.50") = Some (str "1,30" ++ [c_nbsp; c_euro])
  /\ formatCurrency (nearestBinary64 {| mantissa := 130050; scale := 2 |})
     = str "1300,50" ++ [c_nbsp; c_euro]
  /\ (forall whole,
        normalizeAndFormatAmount (str "1.300.50")
        <> Some (whole ++ [c_comma] ++ str "50" ++ [c_nbsp; c_euro])).
Proof.
  repeat split; try (vm_compute; reflexivity).
  intros whole H.
  assert (Hv : normalizeAndFormatAmount (str "1.300.50")
               = Some (str "1,30" ++ [c_nbsp; c_euro])) by (vm_compute; reflexivity).
  rewrite Hv in H. clear Hv. injection H as H.
  apply (f_equal (@rev N)) in H. rewrite !rev_app_distr in H.
  vm_compute in H. discriminate H.
Qed.

(* ================================================================== *)
(** * Amount extraction *)
(* ================================================================== *)

Lemma extractAmount_labeled : forall s tok,
  LabeledAmount s tok ->
  exists tok', LabeledAmount s tok' /\ extractAmount s = normalizeAndFormatAmount tok'.
Proof.
  intros s tok H. destruct (search_labelRegex s) as [Hsound Hcomplete].
  apply Hcomplete in H. unfold extractAmount.
  destruct (search true labelRegex s) as [cap|]; [| contradiction].
  destruct (Hsound cap eq_refl) as [tok' [-> Hlab]]. eauto.
Qed.

Lemma extractAmount_unlabeled : forall s,
  (forall tok, ~ LabeledAmount s tok) ->
  extractAmount s
  = match search true currencyRegex s with
    | Some (Some tok) => normalizeAndFormatAmount tok
    | _ => None
    end.
Proof.
  intros s Hno. destruct (search_labelRegex s) as [Hsound _]. unfold extractAmount.
  destruct (search true labelRegex s) as [cap|].
  - destruct (Hsound cap eq_refl) as [tok [_ Hlab]]. now apply Hno in Hlab.
  - destruct (search true currencyRegex s) as [[tok|]|]; reflexivity.
Qed.

(** C3. For every description text: when the labeled pattern occurs in it
    (one of the four labels, then characters of the same line, a colon,
    white space and a numeric token), the amount is the normalization of a
    token of the labeled pattern, whether or not a numeric token followed
    by a currency marker occurs elsewhere in the text, before or after;
    only when the labeled pattern does not occur is the amount the
    normalization of a token followed by a currency marker (an integer
    part of four digits is printed without a group separator, see
    [groupInteger]). *)
Theorem labeled_amount_has_priority : forall text : jsstring,
  (forall tok, LabeledAmount text tok ->
     exists tok', LabeledAmount text tok'
                  /\ extractAmount text = normalizeAndFormatAmount tok')
  /\ ((forall tok, ~ LabeledAmount text tok) ->
      forall tok, CurrencyAmount text tok ->
      exists tok', CurrencyAmount text tok'
                   /\ extractAmount text = normalizeAndFormatAmount tok')
  /\ (forall tok, search true labelRegex text = Some (Some tok) ->
      extractAmount text = normalizeAndFormatAmount tok)
  /\ extractAmount (str "Importe: 45.000,00 euros, fianza de 99 EUR")
     = Some (str "45.000,00" ++ [c_nbsp; c_euro])
  /\ extractAmount (str "Fianza de 99 EUR. IMPORTE neto (sin IVA): 45.000,00")
     = Some (str "45.000,00" ++ [c_nbsp; c_euro])
  /\ extractAmount (str "el precio es 30000 EUR")
     = Some (str "30.000,00" ++ [c_nbsp; c_euro])
  /\ extractAmount (str "el precio es 3000 EUR")
     = Some (str "3000,00" ++ [c_nbsp; c_euro]).
Proof.
  intro s. split; [| split; [| split]].
  - apply extractAmount_labeled.
  - intros Hno tok Hcur. rewrite (extractAmount_unlabeled Hno).
    destruct (search_currencyRegex s) as [Hsound Hcomplete].
    apply Hcomplete in Hcur.
    destruct (search true currencyRegex s) as [cap|]; [| contradiction].
    destruct (Hsound cap eq_refl) as [tok' [-> Hc]]. eauto.
  - intros tok H. unfold extractAmount. now rewrite H.
  - repeat split; vm_compute; reflexivity.
Qed.

Lemma labeled_amount_has_priority_witness :
  exists tok',
    LabeledAmount (str "Fianza de 99 EUR. IMPORTE neto (sin IVA): 45.000,00") tok'
    /\ extractAmount (str "Fianza de 99 EUR. IMPORTE neto (sin IVA): 45.000,00")
       = normalizeAndFormatAmount tok'.
Proof.
  apply (labeled_amount_has_priority
           (str "Fianza de 99 EUR. IMPORTE neto (sin IVA): 45.000,00"))
    with (tok := str "45.000,00").
  exists (str "Fianza de 99 EUR. "), (str "IMPORTE"), (str " neto (sin IVA)"),
    (str " "), [].
  split; [reflexivity |]. split.
  - left. unfold sameUpToCase. repeat constructor.
  - repeat split; reflexivity.
Defined.

(** A match of either pattern is never printed as the empty string. *)
Lemma extractAmount_shape : forall s amount,
  extractAmount s = Some amount ->
  isEuroAmount amount \/ amount = [c_infinity; c_nbsp; c_euro].
Proof.
  intros s amount H. unfold extractAmount in H.
  destruct (search true labelRegex s) as [[tok|]|].
  - now apply normalizeAndFormatAmount_shape in H.
  - discriminate.
  - destruct (search true currencyRegex s) as [[tok|]|]; try discriminate.
    now apply normalizeAndFormatAmount_shape in H.
Qed.

(** C8. For every description text in which neither the labeled pattern
    nor the currency pattern occurs, and for every numeric token, matched by
    the one or the other pattern, whose cleaned-up form does not parse as a
    number, the amount is absent; an amount that is present is never the
    empty string; and for an entry whose amount is absent the contracting
    body and the summary are extracted from the same description all the
    same. *)
Theorem unparseable_amount_is_absent :
  forall (E : Env) (w : World) (src : jsstring) (st : nat * nat)
         (entry : EntryNode) (text tok : jsstring),
  ((forall t, ~ LabeledAmount text t) -> (forall t, ~ CurrencyAmount text t) ->
     extractAmount text = None)
  /\ (isToken tok = true -> parseFloat (europeanCleanup tok) = None ->
      normalizeAndFormatAmount tok = None)
  /\ (search true labelRegex text = Some (Some tok) ->
      parseFloat (europeanCleanup tok) = None ->
      extractAmount text = None)
  /\ (search true labelRegex text = None ->
      search true currencyRegex text = Some (Some tok) ->
      parseFloat (europeanCleanup tok) = None ->
      extractAmount text = None)
  /\ extractAmount text <> Some []
  /\ (extractAmount (rawDescription entry) = None ->
      amount (fst (parseEntry E w src st entry)) = None
      /\ organism (fst (parseEntry E w src st entry))
         = extractOrganism (rawDescription entry)
      /\ summary (fst (parseEntry E w src st entry))
         = truncatedSummary (stripTags (rawDescription entry)))
  /\ extractAmount (str "Objeto: mantenimiento de jardines") = None
  /\ extractAmount (str "Importe: , 500 EUR") = None
  /\ extractAmount (str "pagadero en ..EUR") = None.
Proof.
  intros E w src st entry s tok.
  split; [| split; [| split; [| split; [| split; [| split]]]]].
  - intros Hnl Hnc. rewrite (extractAmount_unlabeled Hnl).
    destruct (search_currencyRegex s) as [Hsound _].
    destruct (search true currencyRegex s) as [cap|]; [| reflexivity].
    destruct (Hsound cap eq_refl) as [t [_ Hc]]. now apply Hnc in Hc.
  - intros Htok Hnan. now rewrite normalizeAndFormatAmount_token, Hnan.
  - intros Hfound Hnan.
    destruct (search_labelRegex s) as [Hsound _].
    destruct (Hsound _ Hfound) as [t [Heq Hlab]]. injection Heq as <-.
    assert (Htok : isToken tok = true).
    { destruct Hlab as [pre [lab [mid [ws [rest [_ [_ [_ [_ [H _]]]]]]]]]]. exact H. }
    unfold extractAmount. rewrite Hfound.
    now rewrite normalizeAndFormatAmount_token, Hnan.
  - intros Hnone Hfound Hnan.
    destruct (search_currencyRegex s) as [Hsound _].
    destruct (Hsound _ Hfound) as [t [Heq Hcur]]. injection Heq as <-.
    assert (Htok : isToken tok = true).
    { destruct Hcur as [pre [ws [cur [rest [_ [H _]]]]]]. exact H. }
    unfold extractAmount. rewrite Hnone, Hfound.
    now rewrite normalizeAndFormatAmount_token, Hnan.
  - intro H. apply extractAmount_shape in H.
    now apply isEuroAmount_nonempty in H.
  - intro Hnone.
    destruct (parseEntry_fields E w src st entry) as [_ [Hsum [Ham [Horg _]]]].
    rewrite Ham, Horg, Hsum, cleanSummary_stripTags. auto.
  - repeat split; vm_compute; reflexivity.
Qed.

Lemma unparseable_amount_is_absent_witness :
  let entry := mkEntry (str "b5") (str "Servicios y obras")
                 (str "Importe: ,; " ++ [c_Oacute] ++ str "rgano de Contrataci"
                    ++ [c_oacute] ++ str "n: Ayuntamiento de Soria; <b>urgente</b>")
                 (str "2023-12-31") in
  normalizeAndFormatAmount (str ",") = None
  /\ amount (fst (parseEntry demoEnv demoWorld (str "Contratos Menores") (0, 0) entry))
     = None
  /\ organism (fst (parseEntry demoEnv demoWorld (str "Contratos Menores") (0, 0) entry))
     = Some (str "Ayuntamiento de Soria")
  /\ summary (fst (parseEntry demoEnv demoWorld (str "Contratos Menores") (0, 0) entry))
     = str "Importe: ,; " ++ [c_Oacute] ++ str "rgano de Contrataci"
         ++ [c_oacute] ++ str "n: Ayuntamiento de Soria; urgente".
Proof.
  intro entry.
  destruct (unparseable_amount_is_absent demoEnv demoWorld (str "Contratos Menores")
              (0, 0) entry (rawDescription entry) (str ","))
    as [_ [Htok [_ [_ [_ [Hfields _]]]]]].
  split; [apply Htok; reflexivity |].
  destruct Hfields as [Ha [Ho Hs]]; [vm_compute; reflexivity |].
  rewrite Ha, Ho, Hs. repeat split; vm_compute; reflexivity.
Defined.

(* ================================================================== *)
(** * The aggregation *)
(* ================================================================== *)

Lemma insertSorted_Permutation : forall (A : Type) (comparefn : A -> A -> option Z) x l,
  Permutation (insertSorted comparefn x l) (x :: l).
Proof.
  intros A comparefn x. induction l as [|y l IH]; simpl.
  - apply Permutation_refl.
  - destruct (0 <? sortCompare comparefn x y)%Z.
    + eapply perm_trans; [apply perm_skip, IH | apply perm_swap].
    + apply Permutation_refl.
Qed.

Lemma arraySort_Permutation : forall (A : Type) (comparefn : A -> A -> option Z) l,
  Permutation (arraySort comparefn l) l.
Proof.
  intros A comparefn. induction l as [|x l IH]; simpl.
  - apply perm_nil.
  - eapply perm_trans; [apply insertSorted_Permutation | now apply perm_skip].
Qed.

Section SortByDate.

Variable E : Env.

Let dated (t : Tender) : Prop := dateGetTime E (updated t) <> None.

Lemma sortCompare_dated : forall a b,
  dated a -> dated b ->
  sortCompare (byUpdatedDesc E) a b = (timeOf E b - timeOf E a)%Z.
Proof.
  intros a b Ha Hb. unfold sortCompare, byUpdatedDesc, timeOf, dated in *.
  destruct (dateGetTime E (updated b)); [| contradiction].
  destruct (dateGetTime E (updated a)); [reflexivity | contradiction].
Qed.

Lemma insertSorted_sorted : forall x l,
  dated x -> Forall dated l ->
  StronglySorted (newerOrSame E) l ->
  StronglySorted (newerOrSame E) (insertSorted (byUpdatedDesc E) x l).
Proof.
  intros x l Hx. induction l as [|y l IH]; intros Hl Hs; simpl.
  - constructor; constructor.
  - inversion Hl as [|y' l' Hy Hl']; subst.
    inversion Hs as [|y' l' Hs' Hall]; subst.
    rewrite (sortCompare_dated Hx Hy).
    destruct (Z.ltb_spec 0 (timeOf E y - timeOf E x)) as [Hlt | Hge].
    + constructor; [now apply IH |].
      eapply Permutation_Forall.
      * apply Permutation_sym, insertSorted_Permutation.
      * constructor; [unfold newerOrSame; lia | assumption].
    + constructor; [assumption |].
      constructor; [unfold newerOrSame; lia |].
      eapply Forall_impl; [| exact Hall].
      intros z Hz. unfold newerOrSame in *. lia.
Qed.

Lemma arraySort_sorted : forall l,
  Forall dated l -> StronglySorted (newerOrSame E) (arraySort (byUpdatedDesc E) l).
Proof.
  induction l as [|x l IH]; intro Hl; simpl.
  - constructor.
  - inversion Hl as [|x' l' Hx Hl']; subst.
    apply insertSorted_sorted; [assumption | | now apply IH].
    eapply Permutation_Forall; [apply Permutation_sym, arraySort_Permutation | assumption].
Qed.

(** The sort is stable: records of one date keep their order. *)
Lemma insertSorted_stable : forall v x l,
  dated x -> Forall dated l ->
  filter (fun t => timeOf E t =? v)%Z (insertSorted (byUpdatedDesc E) x l)
  = filter (fun t => timeOf E t =? v)%Z (x :: l).
Proof.
  intros v x l Hx. induction l as [|y l IH]; intro Hl; [reflexivity |].
  inversion Hl as [|y' l' Hy Hl']; subst.
  cbn [insertSorted]. rewrite (sortCompare_dated Hx Hy).
  destruct (Z.ltb_spec 0 (timeOf E y - timeOf E x)) as [Hlt | Hge]; [| reflexivity].
  cbn [filter]. rewrite (IH Hl'). cbn [filter].
  destruct (Z.eqb_spec (timeOf E y) v) as [Hyv | Hyv];
    destruct (Z.eqb_spec (timeOf E x) v) as [Hxv | Hxv]; try reflexivity; lia.
Qed.

Lemma arraySort_stable : forall v l,
  Forall dated l ->
  filter (fun t => timeOf E t =? v)%Z (arraySort (byUpdatedDesc E) l)
  = filter (fun t => timeOf E t =? v)%Z l.
Proof.
  intros v. induction l as [|x l IH]; intro Hl; [reflexivity |].
  inversion Hl as [|x' l' Hx Hl']; subst.
  cbn [arraySort fold_right]. fold (arraySort (byUpdatedDesc E) l).
  rewrite insertSorted_stable.
  - cbn [filter]. now rewrite IH.
  - assumption.
  - eapply Permutation_Forall; [apply Permutation_sym, arraySort_Permutation | assumption].
Qed.

(** A feed's pipeline never throws. *)
Lemma feedPipeline_Ok : forall feed, feedPipeline E feed = Ok (contribution E feed).
Proof.
  intro feed. unfold contribution, feedPipeline.
  destruct (fetchFeedContent E (url feed)) as [[|c s]|]; try reflexivity.
  destruct (startsWith (trim (c :: s)) (str "<")); [| reflexivity].
  destruct (parseAtomFeed E _ (c :: s) _); reflexivity.
Qed.

Lemma promiseAll_pipelines : forall feeds,
  promiseAll (map (feedPipeline E) feeds) = Ok (map (contribution E) feeds).
Proof.
  induction feeds as [|f fs IH]; simpl; [reflexivity |].
  now rewrite feedPipeline_Ok, IH.
Qed.

Lemma fetchTenders_eq :
  fetchTenders E
  = Ok (arraySort (byUpdatedDesc E) (concat (map (contribution E) FEED_CONFIG))).
Proof. unfold fetchTenders. now rewrite promiseAll_pipelines. Qed.

Lemma contribution_cases : forall feed,
  (fetchFeedContent E (url feed) = None -> contribution E feed = [])
  /\ (forall xml e,
        fetchFeedContent E (url feed) = Some xml ->
        parseAtomFeed E (feedWorld E (feedSourceType feed)) xml (feedSourceType feed)
        = Throw e ->
        contribution E feed = [])
  /\ (forall xml tenders,
        fetchFeedContent E (url feed) = Some xml ->
        startsWith (trim xml) (str "<") = true ->
        parseAtomFeed E (feedWorld E (feedSourceType feed)) xml (feedSourceType feed)
        = Ok tenders ->
        contribution E feed = tenders).
Proof.
  intro feed. unfold contribution, feedPipeline. repeat split.
  - intros ->. reflexivity.
  - intros xml e -> Hthrow. destruct xml as [|c s]; [reflexivity |].
    destruct (startsWith (trim (c :: s)) (str "<")); [| reflexivity].
    now rewrite Hthrow.
  - intros xml tenders -> Hsniff Hparse. destruct xml as [|c s]; [discriminate |].
    now rewrite Hsniff, Hparse.
Qed.

End SortByDate.

(** C2. Whatever the outcome of each feed, the aggregation returns a list
    and does not throw; the list holds exactly the records of the feeds
    that succeeded, each feed whose relays returned nothing or whose parse
    threw contributing none. When the timestamps of the records parse as
    dates, the list is sorted from the most recent to the oldest, so that
    its first record is the newest, and records of one date are in the
    order of the concatenation of the feeds. *)
Theorem fetchTenders_merges_and_sorts : forall E : Env,
  exists all,
    fetchTenders E = Ok all
    /\ Permutation all (concat (map (contribution E) FEED_CONFIG))
    /\ (forall feed,
          (fetchFeedContent E (url feed) = None -> contribution E feed = [])
          /\ (forall xml e,
                fetchFeedContent E (url feed) = Some xml ->
                parseAtomFeed E (feedWorld E (feedSourceType feed)) xml
                  (feedSourceType feed) = Throw e ->
                contribution E feed = [])
          /\ (forall xml tenders,
                fetchFeedContent E (url feed) = Some xml ->
                startsWith (trim xml) (str "<") = true ->
                parseAtomFeed E (feedWorld E (feedSourceType feed)) xml
                  (feedSourceType feed) = Ok tenders ->
                contribution E feed = tenders))
    /\ ((forall t, In t all -> dateGetTime E (updated t) <> None) ->
        StronglySorted (newerOrSame E) all
        /\ (forall newest rest, all = newest :: rest ->
              Forall (fun t => (timeOf E t <= timeOf E newest)%Z) rest)
        /\ (forall v,
              filter (fun t => timeOf E t =? v)%Z all
              = filter (fun t => timeOf E t =? v)%Z
                  (concat (map (contribution E) FEED_CONFIG)))).
Proof.
  intros E.
  exists (arraySort (byUpdatedDesc E) (concat (map (contribution E) FEED_CONFIG))).
  split; [apply fetchTenders_eq |].
  split; [apply arraySort_Permutation |].
  split; [apply contribution_cases |].
  intro Hdated.
  assert (Hall : Forall (fun t => dateGetTime E (updated t) <> None)
                   (concat (map (contribution E) FEED_CONFIG))).
  { apply Forall_forall. intros t Ht. apply Hdated.
    eapply Permutation_in; [apply Permutation_sym, arraySort_Permutation | exact Ht]. }
  assert (Hsorted : StronglySorted (newerOrSame E)
            (arraySort (byUpdatedDesc E) (concat (map (contribution E) FEED_CONFIG))))
    by (apply arraySort_sorted; exact Hall).
  split; [exact Hsorted |].
  split.
  - intros newest rest Heq. rewrite Heq in Hsorted.
    inversion Hsorted as [|a l Hs Hfa]; subst. exact Hfa.
  - intro v. apply arraySort_stable; exact Hall.
Qed.

(** Feed A times out on every relay, feed B gives five entries and feed C
    three: eight records, none of feed A, the newest first. *)
Lemma fetchTenders_merges_and_sorts_witness :
  exists all,
    fetchTenders demoEnv = Ok all
    /\ contribution demoEnv
         {| url := str "https://contrataciondelsectorpublico.gob.es/sindicacion/sindicacion_643/licitacionesPerfilesContratanteCompleto3.atom";
            feedSourceType := str "Perfiles Contratante" |} = []
    /\ map id all
       = [str "c3"; str "b2"; str "c1"; str "b4"; str "b1"; str "c2"; str "b3"; str "b5"]
    /\ StronglySorted (newerOrSame demoEnv) all.
Proof.
  destruct (fetchTenders_merges_and_sorts demoEnv)
    as [all [Hfetch [_ [_ Hsorted]]]].
  exists all. split; [exact Hfetch |].
  split; [vm_compute; reflexivity |].
  assert (Hval : fetchTenders demoEnv = Ok all) by exact Hfetch.
  vm_compute in Hval. injection Hval as <-.
  split; [vm_compute; reflexivity |].
  apply Hsorted.
  intros t Ht.
  repeat (destruct Ht as [<- | Ht]; [vm_compute; discriminate |]).
  contradiction.
Defined.

(* ================================================================== *)
(** * Parsing a document twice *)
(* ================================================================== *)

Lemma parseEntry_agree : forall E src w1 w2 st1 st2 entry,
  let a := fst (parseEntry E w1 src st1 entry) in
  let b := fst (parseEntry E w2 src st2 entry) in
  agreeOnExtractedFields a b
  /\ (hasIdText entry = true -> id a = id b)
  /\ (hasUpdatedText entry = true -> updated a = updated b).
Proof.
  intros E src w1 w2 st1 st2 entry a b.
  destruct (parseEntry_fields E w1 src st1 entry)
    as [A1 [A2 [A3 [A4 [A5 [A6 [A7 [A8 A9]]]]]]]].
  destruct (parseEntry_fields E w2 src st2 entry)
    as [B1 [B2 [B3 [B4 [B5 [B6 [B7 [B8 B9]]]]]]]].
  fold a in A1, A2, A3, A4, A5, A6, A7, A8, A9.
  fold b in B1, B2, B3, B4, B5, B6, B7, B8, B9.
  split; [| split].
  - unfold agreeOnExtractedFields.
    rewrite A1, A2, A3, A4, A5, A6, A7, A8, A9, B1, B2, B3, B4, B5, B6, B7, B8, B9.
    repeat split; reflexivity.
  - intro H.
    pose proof (parseEntry_id E w1 src st1 entry H) as Ha.
    pose proof (parseEntry_id E w2 src st2 entry H) as Hb.
    fold a in Ha. fold b in Hb. congruence.
  - intro H.
    pose proof (parseEntry_updated E w1 src st1 entry H) as Ha.
    pose proof (parseEntry_updated E w2 src st2 entry H) as Hb.
    fold a in Ha. fold b in Hb. congruence.
Qed.

Lemma parseEntries_agree : forall E src w1 w2 entries st1 st2 i e a b,
  nth_error entries i = Some e ->
  nth_error (parseEntries E w1 src st1 entries) i = Some a ->
  nth_error (parseEntries E w2 src st2 entries) i = Some b ->
  agreeOnExtractedFields a b
  /\ (hasIdText e = true -> id a = id b)
  /\ (hasUpdatedText e = true -> updated a = updated b).
Proof.
  intros E src w1 w2. induction entries as [|x xs IH];
    intros st1 st2 i e a b He Ha Hb.
  - destruct i; discriminate.
  - cbn [parseEntries] in Ha, Hb.
    pose proof (parseEntry_agree E src w1 w2 st1 st2 x) as Hx.
    destruct (parseEntry E w1 src st1 x) as [t1 st1'].
    destruct (parseEntry E w2 src st2 x) as [t2 st2'].
    destruct i as [|i]; simpl in He, Ha, Hb.
    + injection He as <-. injection Ha as <-. injection Hb as <-. exact Hx.
    + eapply IH; eassumption.
Qed.

(** C9, as amended. For every feed document, two parses of it (at
    different times, with different random draws) either both throw the
    same error or return lists of the same length, one record for each
    entry, whose records agree field for field, except for the identifier of
    an entry whose id text is absent or empty (generated from a random
    draw) and for the timestamp of an entry whose updated text is absent or
    empty (the time of the parse). *)
Theorem parse_twice_agrees :
  forall (E : Env) (src : jsstring) (w1 w2 : World) (xml : jsstring),
  match parseAtomFeed E w1 xml src, parseAtomFeed E w2 xml src with
  | Ok l1, Ok l2 =>
      exists entries,
        parseFromString E xml = Ok entries
        /\ length l1 = length entries /\ length l2 = length entries
        /\ forall i e a b,
             nth_error entries i = Some e ->
             nth_error l1 i = Some a -> nth_error l2 i = Some b ->
             agreeOnExtractedFields a b
             /\ (hasIdText e = true -> id a = id b)
             /\ (hasUpdatedText e = true -> updated a = updated b)
  | Throw e1, Throw e2 => e1 = e2
  | _, _ => False
  end.
Proof.
  intros E src w1 w2 xml. unfold parseAtomFeed.
  destruct (parseFromString E xml) as [entries | e]; simpl; [| reflexivity].
  exists entries. split; [reflexivity |].
  rewrite !parseEntries_length. split; [reflexivity | split; [reflexivity |]].
  intros i e a b. apply parseEntries_agree.
Qed.

(** The claim C9 as it is worded fails on an entry that has an identifier
    and no timestamp: the two parses differ in [updated], which is the time
    of each parse. *)
Lemma ingestion_time_counterexample :
  exists a b,
    parseAtomFeed untimedEnv demoWorld (str "<feed/>") (str "Contratos Menores") = Ok [a]
    /\ parseAtomFeed untimedEnv laterWorld (str "<feed/>") (str "Contratos Menores") = Ok [b]
    /\ idText untimedEntry = Some (str "urn:licitacion:1")
    /\ id a = str "urn:licitacion:1" /\ id b = str "urn:licitacion:1"
    /\ updated a = str "2024-03-10" /\ updated b = str "2024-03-11"
    /\ a <> b.
Proof.
  eexists. eexists.
  split; [vm_compute; reflexivity |].
  split; [vm_compute; reflexivity |].
  repeat split; try reflexivity.
  intro H. apply (f_equal updated) in H. vm_compute in H. discriminate.
Qed.
